(** * VASPy, [vaspy/iter.py]: the OSZICAR and OUTCAR readers

    A shallow embedding of the two classes of [vaspy/iter.py]:

    - [OsziCar]: the line matcher [match], the loader [load] and the
      sort-and-slice operation [esort];
    - [OutCar]: the block generator [__iter__] and the static method [fmax].

    Text is a list of 8-bit characters; the classes [\d], [\w] and [\s] are
    the ASCII ones of a byte-string pattern.  A Python float is represented
    by the exact rational its decimal text denotes (rounding to binary64 and
    overflow to infinity are outside the model); a Python int is a [Z]. *)

From Stdlib Require Import ZArith QArith Qround List Ascii String Lia Permutation.
From stdpp Require Import gmap strings sorting.
Import ListNotations.

Local Open Scope Z_scope.

(** ** Text *)

Abbreviation text := (list ascii).

Definition txt (s : string) : text := list_ascii_of_string s.
Definition str (t : text) : string := string_of_list_ascii t.

Definition newline : ascii := ascii_of_nat 10.

(** ** Exceptions and results *)

Inductive exn : Type :=
| AttributeError
| ValueError
| TypeError
| OverflowError.

Inductive result (A : Type) : Type :=
| Ok (a : A)
| Raise (e : exn).
Arguments Ok {A} a.
Arguments Raise {A} e.

#[global] Instance result_bind : MBind result := fun A B f r =>
  match r with
  | Ok a => f a
  | Raise e => Raise e
  end.

#[global] Instance result_ret : MRet result := fun A a => Ok a.

(** A list comprehension whose body may raise: the first error wins. *)
Fixpoint mapM {A B} (f : A -> result B) (l : list A) : result (list B) :=
  match l with
  | [] => Ok []
  | a :: l' => b ← f a; bs ← mapM f l'; Ok (b :: bs)
  end.

(** ** Numbers *)

Inductive num : Type :=
| NInt (z : Z)
| NFloat (q : Q).

(** ** Character classes of the [re] module (byte strings) *)

Definition is_digit (c : ascii) : bool :=
  let n := nat_of_ascii c in ((48 <=? n) && (n <=? 57))%nat.

Definition is_space (c : ascii) : bool :=
  let n := nat_of_ascii c in (((9 <=? n) && (n <=? 13)) || (n =? 32))%nat.

Definition is_alpha (c : ascii) : bool :=
  let n := nat_of_ascii c in
  (((65 <=? n) && (n <=? 90)) || ((97 <=? n) && (n <=? 122)))%nat.

Definition is_word (c : ascii) : bool :=
  is_alpha c || is_digit c || Ascii.eqb c "_".

(** [[\w|\d|\s]]: inside a class the bar is an ordinary character. *)
Definition is_name_char (c : ascii) : bool :=
  is_word c || Ascii.eqb c "|" || is_digit c || is_space c.

(** [[\+|-]] *)
Definition is_sign_char (c : ascii) : bool :=
  Ascii.eqb c "+" || Ascii.eqb c "|" || Ascii.eqb c "-".

(** [[e|E]] *)
Definition is_exp_char (c : ascii) : bool :=
  Ascii.eqb c "e" || Ascii.eqb c "|" || Ascii.eqb c "E".

(** ** A backtracking matcher for the patterns of the file

    The fragment of [re] the source uses: character classes, sequence,
    greedy [?], [*] and [+], capturing groups, [^] and [$] (no MULTILINE).
    Alternatives are tried in the engine's priority order (greedy first) and
    the first complete match wins; a group inside a repetition keeps the text
    of its last iteration. *)

Inductive regex : Type :=
| Eps
| Chr (p : ascii -> bool)
| Seq (r1 r2 : regex)
| Opt (r : regex)
| Star (r : regex)
| Plus (r : regex)
| Group (i : nat) (r : regex)
| Bol
| Eol.

Definition Lit (c : ascii) : regex := Chr (Ascii.eqb c).

Fixpoint Lits (s : text) : regex :=
  match s with
  | [] => Eps
  | c :: s' => Seq (Lit c) (Lits s')
  end.

(** Captured groups, most recent binding first. *)
Abbreviation caps := (list (nat * text)).

Fixpoint group (c : caps) (i : nat) : option text :=
  match c with
  | [] => None
  | (j, t) :: c' => if (i =? j)%nat then Some t else group c' i
  end.

Section Engine.
Context {A : Type}.

(** A continuation receives: is the position still the start of the
    subject, the unread text, the groups so far. *)
Abbreviation cont := (bool -> text -> caps -> option A).

Fixpoint star (m : bool -> text -> caps -> cont -> option A)
    (fuel : nat) (b : bool) (s : text) (c : caps) (k : cont) : option A :=
  match fuel with
  | O => k b s c
  | S n =>
      match m b s c (fun b' s' c' =>
              if (length s' <? length s)%nat then star m n b' s' c' k
              else None) with
      | Some x => Some x
      | None => k b s c
      end
  end.

Fixpoint exec (r : regex) (b : bool) (s : text) (c : caps) (k : cont)
    {struct r} : option A :=
  match r with
  | Eps => k b s c
  | Chr p =>
      match s with
      | a :: s' => if p a then k false s' c else None
      | [] => None
      end
  | Seq r1 r2 => exec r1 b s c (fun b' s' c' => exec r2 b' s' c' k)
  | Opt r1 =>
      match exec r1 b s c k with
      | Some x => Some x
      | None => k b s c
      end
  | Star r1 => star (exec r1) (length s) b s c k
  | Plus r1 =>
      exec r1 b s c (fun b' s' c' => star (exec r1) (length s') b' s' c' k)
  | Group i r1 =>
      exec r1 b s c (fun b' s' c' =>
        k b' s' ((i, firstn (length s - length s') s) :: c'))
  | Bol => if b then k b s c else None
  | Eol =>
      match s with
      | [] => k b s c
      | [a] => if Ascii.eqb a newline then k b s c else None
      | _ => None
      end
  end.
End Engine.

(** [pattern.match(s)]: a match at position 0 only. *)
Definition re_match (r : regex) (s : text) : option caps :=
  exec r true s [] (fun _ _ c => Some c).

(** [pattern.search(s)]: the first position at which a match starts. *)
Fixpoint search_from (r : regex) (b : bool) (s : text) : option caps :=
  match exec r b s [] (fun _ _ c => Some c) with
  | Some c => Some c
  | None =>
      match s with
      | [] => None
      | _ :: s' => search_from r false s'
      end
  end.

Definition re_search (r : regex) (s : text) : option caps :=
  search_from r true s.

(** [pattern.findall(s)] for a pattern with two groups: the (group 1,
    group 2) tuples of the successive non-overlapping matches, scanning left
    to right; a group that took no part reads as the empty text. *)
Definition group_or_empty (c : caps) (i : nat) : text :=
  match group c i with
  | Some t => t
  | None => []
  end.

Fixpoint findall_from (fuel : nat) (r : regex) (b : bool) (s : text)
    : list (text * text) :=
  match fuel with
  | O => []
  | S n =>
      let advance :=
        match s with
        | [] => []
        | _ :: s1 => findall_from n r false s1
        end in
      match exec r b s [] (fun _ s' c => Some (s', c)) with
      | Some (s', c) =>
          (group_or_empty c 1, group_or_empty c 2) ::
          (if (length s' <? length s)%nat then findall_from n r false s'
           else advance)
      | None => advance
      end
  end.

Definition findall (r : regex) (s : text) : list (text * text) :=
  findall_from (S (length s)) r true s.

(** ** The patterns of [OsziCar.__init__] and [OutCar] *)

(** [[\+|-]?\d*\.\d*(?:[e|E][\+|-]?\d+)?] *)
Definition float_regex : regex :=
  Seq (Opt (Chr is_sign_char))
 (Seq (Star (Chr is_digit))
 (Seq (Lit ".")
 (Seq (Star (Chr is_digit))
      (Opt (Seq (Chr is_exp_char)
           (Seq (Opt (Chr is_sign_char)) (Plus (Chr is_digit)))))))).

(** [\s*([\w|\d|\s]+)\=\s*(float_regex)\s*]; the two groups are numbered
    [g] and [g+1], which is 1 and 2 in [eq_regex] itself and 4 and 5 where
    the text of the pattern is spliced into [split_regex]. *)
Definition eq_regex_at (g : nat) : regex :=
  Seq (Star (Chr is_space))
 (Seq (Group g (Plus (Chr is_name_char)))
 (Seq (Lit "=")
 (Seq (Star (Chr is_space))
 (Seq (Group (S g) float_regex)
      (Star (Chr is_space)))))).

Definition eq_regex : regex := eq_regex_at 1.

(** [^\s*(\d+)\s*((eq_regex)+)$] *)
Definition split_regex : regex :=
  Seq Bol
 (Seq (Star (Chr is_space))
 (Seq (Group 1 (Plus (Chr is_digit)))
 (Seq (Star (Chr is_space))
 (Seq (Group 2 (Plus (Group 3 (eq_regex_at 4))))
      Eol)))).

(** [^ POSITION\s+TOTAL-FORCE\s*\(eV\/Angst\)$] *)
Definition force_regex : regex :=
  Seq Bol
 (Seq (Lits (txt " POSITION"))
 (Seq (Plus (Chr is_space))
 (Seq (Lits (txt "TOTAL-FORCE"))
 (Seq (Star (Chr is_space))
 (Seq (Lits (txt "(eV/Angst)"))
      Eol))))).

(** ** The builtins [int] and [float] on text

    [float] and [int] are given on sign, digits, point and exponent;
    surrounding blanks, [inf], [nan] and digit separators, which the
    builtins also read, are not part of any text the patterns let through. *)

Fixpoint span (p : ascii -> bool) (s : text) : text * text :=
  match s with
  | a :: s' => if p a then let (u, v) := span p s' in (a :: u, v) else ([], s)
  | [] => ([], [])
  end.

Definition digit_val (c : ascii) : Z := Z.of_nat (nat_of_ascii c) - 48.

Definition digits_val (ds : text) : Z :=
  fold_left (fun acc c => 10 * acc + digit_val c) ds 0.

(** A leading [+] or [-]: is the number negated, and the rest. *)
Definition take_sign (s : text) : bool * text :=
  match s with
  | a :: s' =>
      if Ascii.eqb a "-" then (true, s')
      else if Ascii.eqb a "+" then (false, s')
      else (false, s)
  | [] => (false, s)
  end.

Definition signed (neg : bool) (z : Z) : Z := if neg then - z else z.

Definition is_nil {A} (l : list A) : bool :=
  match l with [] => true | _ => false end.

Definition int_of_string (s : text) : result Z :=
  let (neg, s1) := take_sign s in
  let (ds, rest) := span is_digit s1 in
  if is_nil ds || negb (is_nil rest) then Raise ValueError
  else Ok (signed neg (digits_val ds)).

(** The exponent part: empty, or [e]/[E], an optional sign and digits. *)
Definition exponent_of_string (s : text) : result Z :=
  match s with
  | [] => Ok 0
  | a :: s' =>
      if Ascii.eqb a "e" || Ascii.eqb a "E" then int_of_string s'
      else Raise ValueError
  end.

(** [m * 10^e] as a rational in lowest terms. *)
Definition decimal (m e : Z) : Q := Qred (inject_Z m * Qpower (inject_Z 10) e).

Definition float_of_string (s : text) : result Q :=
  let (neg, s1) := take_sign s in
  let (ip, s2) := span is_digit s1 in
  let (fp, s3) :=
    match s2 with
    | a :: s2' => if Ascii.eqb a "." then span is_digit s2' else ([], s2)
    | [] => ([], s2)
    end in
  if is_nil ip && is_nil fp then Raise ValueError
  else
    e ← exponent_of_string s3;
    Ok (decimal (signed neg (digits_val (ip ++ fp)))
                (e - Z.of_nat (length fp))).

(** *** The shape of a step line

    A step line as VASP writes it: blanks, the step, then assignments, each
    made of blanks, a name, [=], optional blanks and a number with a decimal
    point; blanks (the newline among them) may end the line. *)

Definition digits (s : text) : Prop := Forall (fun c => is_digit c = true) s.
Definition blanks (s : text) : Prop := Forall (fun c => is_space c = true) s.

(** An optional [+] or [-], and whether it negates. *)
Inductive sign_text : text -> bool -> Prop :=
| sign_none : sign_text [] false
| sign_plus : sign_text ["+"%char] false
| sign_minus : sign_text ["-"%char] true.

(** Nothing, or [e]/[E], an optional sign and one digit or more; and the
    exponent written. *)
Inductive exponent_text : text -> Z -> Prop :=
| exponent_none : exponent_text [] 0
| exponent_some e sg neg ds :
    e = "e"%char \/ e = "E"%char ->
    sign_text sg neg -> digits ds -> ds <> [] ->
    exponent_text (e :: sg ++ ds) (signed neg (digits_val ds)).

(** An optional sign, optional integer digits, a decimal point, optional
    fractional digits (one digit at least in all) and an optional exponent;
    and the number written. *)
Inductive float_text : text -> Q -> Prop :=
| float_text_intro sg neg ip fp ex e :
    sign_text sg neg -> digits ip -> digits fp -> ip <> [] \/ fp <> [] ->
    exponent_text ex e ->
    float_text (sg ++ ip ++ "."%char :: fp ++ ex)
      (decimal (signed neg (digits_val (ip ++ fp))) (e - Z.of_nat (length fp))).

(** A name: characters of the name class up to the [=], the first of them
    not a blank. *)
Definition name_text (s : text) : Prop :=
  Forall (fun c => is_name_char c = true) s /\
  match s with
  | [] => False
  | a :: _ => is_space a = false
  end.

(** One assignment of a line: the blanks before it, the name, the blanks
    after [=] and the text of the number. *)
Record assignment : Type := Assignment {
  a_gap : text;
  a_name : text;
  a_sep : text;
  a_value : text
}.

Definition assignment_text (p : assignment) : text :=
  a_gap p ++ a_name p ++ "="%char :: a_sep p ++ a_value p.

Definition well_formed_assignment (p : assignment) (number : Q) : Prop :=
  blanks (a_gap p) /\ a_gap p <> [] /\ name_text (a_name p) /\
  blanks (a_sep p) /\ float_text (a_value p) number.

Definition step_line (lead step : text) (ps : list assignment) (tail : text)
    : text :=
  lead ++ step ++ concat (map assignment_text ps) ++ tail.

(** The blanks that come next, and the text after them: the line from its
    first name on, which is also what group 2 of [split_regex] captures. *)
Definition next_gap (ps : list assignment) (tail : text) : text :=
  match ps with
  | [] => tail
  | p :: _ => a_gap p
  end.

Fixpoint after_gap (ps : list assignment) (tail : text) : text :=
  match ps with
  | [] => []
  | p :: ps' =>
      a_name p ++ "="%char :: a_sep p ++ a_value p ++
      next_gap ps' tail ++ after_gap ps' tail
  end.

(** The text [s] does not go on with a character of the class [p]. *)
Definition stops (p : ascii -> bool) (s : text) : Prop :=
  match s with
  | [] => True
  | a :: _ => p a = false
  end.

(** The text [s] is over, or goes on with a blank. *)
Definition delimited (s : text) : Prop :=
  match s with
  | [] => True
  | a :: _ => is_space a = true
  end.

(** Groups 1 and 2 are not touched by the rounds of the repetition. *)
Definition extends (c c' : caps) : Prop :=
  exists d, c' = d ++ c /\ Forall (fun e => (3 <= e.1)%nat) d.

(** ** Python objects held in attributes *)

Inductive pyobj : Type :=
| PyList (l : list num)        (* a growable list of numbers *)
| PyTuple (l : list string)    (* a tuple of names *)
| PyStr (s : text)
| NdArray (l : list num)       (* a one-dimensional numeric array *)
| NdStrs (l : list string)     (* a one-dimensional array of texts *)
| NdStr (s : text)             (* a zero-dimensional array holding a text *)
| NdObject                     (* a zero-dimensional array of an object *)
| PyOther.                     (* a bound method or a compiled pattern *)

(** An instance is its attribute table; [getattr] of a name that is not
    there raises [AttributeError]. *)
Abbreviation object := (gmap string pyobj).

Definition hasattr (self : object) (name : string) : bool :=
  match self !! name with Some _ => true | None => false end.

Definition getattr (self : object) (name : string) : result pyobj :=
  match self !! name with
  | Some v => Ok v
  | None => Raise AttributeError
  end.

Definition setattr (self : object) (name : string) (v : pyobj) : object :=
  <[name := v]> self.

(** What iterating an object yields. *)
Inductive elem : Type :=
| ENum (x : num)
| EStr (s : text).

Definition iter_obj (v : pyobj) : result (list elem) :=
  match v with
  | PyList l | NdArray l => Ok (map ENum l)
  | PyTuple l | NdStrs l => Ok (map (fun s => EStr (txt s)) l)
  | PyStr s => Ok (map (fun c => EStr [c]) s)
  | NdStr _ | NdObject | PyOther => Raise TypeError
  end.

Definition is_int (x : num) : bool :=
  match x with NInt _ => true | NFloat _ => false end.

Definition to_float (x : num) : Q :=
  match x with NInt z => inject_Z z | NFloat q => q end.

(** [np.array(data)]: a list with a float in it becomes a float array. *)
Definition np_array (v : pyobj) : pyobj :=
  match v with
  | PyList l | NdArray l =>
      NdArray (if forallb is_int l then l else map (fun x => NFloat (to_float x)) l)
  | PyTuple l | NdStrs l => NdStrs l
  | PyStr s | NdStr s => NdStr s
  | NdObject | PyOther => NdObject
  end.

(** ** class OsziCar *)

Module OsziCar.

(** [zip] over the unpacked [eq_tuples], assigned to two targets: with
    no tuple at all there is nothing to assign. *)
Definition unzip2 {A B} (l : list (A * B)) : result (list A * list B) :=
  match l with
  | [] => Raise ValueError
  | _ => Ok (map fst l, map snd l)
  end.

(** [name.replace(' ', '')] *)
Definition remove_spaces (name : text) : text :=
  filter (fun c => negb (Ascii.eqb c " ")) name.

(** [m.group(i)] handed to a builtin that wants text. *)
Definition group_text (m : caps) (i : nat) : result text :=
  match group m i with
  | Some t => Ok t
  | None => Raise TypeError
  end.

(** [match(self, line)]: [None] for a line the pattern does not match,
    else ['step'] and the name/number pairs of the line. *)
Definition match_ (line : text) : result (option (list (string * num))) :=
  match re_search split_regex line with
  | Some m =>
      g1 ← group_text m 1;
      step ← int_of_string g1;
      resid ← group_text m 2;
      let eq_tuples := findall eq_regex resid in
      '(names, numbers) ← unzip2 eq_tuples;
      let names := map (fun name => str (remove_spaces name)) names in
      numbers ← mapM float_of_string numbers;
      Ok (Some (("step"%string, NInt step) ::
                zip names (map NFloat numbers)))
  | None => Ok None
  end.

(** The instance as [__init__] leaves it when it calls [load], as far as
    this file shows: the two compiled patterns, the methods of the class
    body and [filename], which [load] calls.  What else [object] and the
    base class [VasPy] give an instance is not in the file; the properties
    of [load] and [esort] are stated for any instance, and this one serves
    the examples.  The two branches on [PY2] differ in [list(...)] only
    and are one in the model. *)
Definition methods : list string :=
  ["match"; "load"; "esort"; "plot"; "filename"]%string.

Definition new : object :=
  foldr (fun name o => setattr o name PyOther) ∅
    (["eq_regex"; "split_regex"]%string ++ methods).

(** One round of [for name, number in eq_tuples]. *)
Definition append_number (self : object) (name : string) (number : num)
    : result object :=
  match self !! name with
  | None => Ok (setattr self name (PyList [number]))
  | Some (PyList l) => Ok (setattr self name (PyList (l ++ [number])))
  | Some _ => Raise AttributeError
  end.

Fixpoint append_numbers (self : object) (eq_tuples : list (string * num))
    : result object :=
  match eq_tuples with
  | [] => Ok self
  | (name, number) :: rest =>
      self' ← append_number self name number;
      append_numbers self' rest
  end.

(** The body of [for line in f], on the instance and the local
    [content]. *)
Definition load_line (st : object * text) (line : text)
    : result (object * text) :=
  let (self, content) := st in
  r ← match_ line;
  match r with
  | Some eq_tuples =>
      let self1 :=
        if hasattr self "vars" then self
        else setattr self "vars" (PyTuple (map fst eq_tuples)) in
      self2 ← append_numbers self1 eq_tuples;
      Ok (self2, content ++ line)
  | None => Ok st
  end.

Fixpoint load_lines (st : object * text) (f : list text)
    : result (object * text) :=
  match f with
  | [] => Ok st
  | line :: f' => st' ← load_line st line; load_lines st' f'
  end.

(** [setattr(self, var, np.array(getattr(self, var)))] for each [var]. *)
Fixpoint to_arrays (self : object) (vars : list elem) : result object :=
  match vars with
  | [] => Ok self
  | ENum _ :: _ => Raise TypeError
  | EStr var :: rest =>
      data ← getattr self (str var);
      to_arrays (setattr self (str var) (np_array data)) rest
  end.

(** [load(self)], on the lines [f] of the file. *)
Definition load (self : object) (f : list text) : result object :=
  '(self1, content) ← load_lines (self, []) f;
  let self2 := setattr self1 "content" (PyStr content) in
  vars ← getattr self2 "vars";
  vars ← iter_obj vars;
  to_arrays self2 vars.

(** [OsziCar(filename)], on the lines of that file. *)
Definition __init__ (f : list text) : result object := load new f.

(** *** [esort] *)

Definition elem_float (x : elem) : result Q :=
  match x with
  | ENum x => Ok (to_float x)
  | EStr s => float_of_string s
  end.

(** The range of a 64-bit integer field. *)
Definition in_int64 (z : Z) : Prop := - 2 ^ 63 <= z < 2 ^ 63.

Definition int64 (z : Z) : result Z :=
  if (- 2 ^ 63 <=? z) && (z <? 2 ^ 63) then Ok z else Raise OverflowError.

(** Rounding towards zero. *)
Definition Qtrunc (q : Q) : Z :=
  if Qle_bool 0 q then Qfloor q else Qceiling q.

Definition elem_int (x : elem) : result Z :=
  match x with
  | ENum (NInt z) => int64 z
  | ENum (NFloat q) => int64 (Qtrunc q)
  | EStr s => z ← int_of_string s; int64 z
  end.

(** [np.array(zipped, dtype=[('var', float), ('step', int)])] *)
Definition record_of (p : elem * elem) : result (Q * Z) :=
  v ← elem_float p.1; s ← elem_int p.2; Ok (v, s).

(** The order of [np.sort(..., order='var')]: by ['var'], and by the
    remaining field ['step'] among equal values. *)
Definition rec_le (a b : Q * Z) : Prop :=
  (a.1 < b.1)%Q \/ ((a.1 == b.1)%Q /\ a.2 <= b.2).

#[global] Instance rec_le_dec : RelDecision rec_le.
Proof.
  intros a b. unfold rec_le.
  destruct (Qlt_le_dec a.1 b.1) as [Hlt | Hge].
  - left. now left.
  - destruct (Qeq_dec a.1 b.1) as [Heq | Hne].
    + destruct (Z_le_dec a.2 b.2) as [Hle | Hgt].
      * left. now right.
      * right. intros [H | [_ H]]; [| lia].
        apply (Qlt_not_le _ _ H Hge).
    + right. intros [H | [H _]]; [| contradiction].
      apply (Qlt_not_le _ _ H Hge).
Defined.

(** The slices [a[:n]] and [a[i:]] of Python, for any sign of the bound. *)
Definition clamp {A} (l : list A) (i : Z) : nat :=
  Z.to_nat (if i <? 0 then Z.max 0 (Z.of_nat (length l) + i) else i).

Definition slice_to {A} (n : Z) (l : list A) : list A := take (clamp l n) l.
Definition slice_from {A} (i : Z) (l : list A) : list A := drop (clamp l i) l.

Definition esort (self : object) (var : string) (n : Z) (reverse : bool)
    : result (list (Q * Z)) :=
  a ← getattr self var;
  s ← getattr self "step";
  xs ← iter_obj a;
  ys ← iter_obj s;
  zipped ← mapM record_of (zip xs ys);
  let srted := merge_sort rec_le zipped in
  Ok (if reverse then slice_from (- n) srted else slice_to n srted).

(** Did the line matcher return a match for the line? *)
Definition matched (line : text) : bool :=
  match match_ line with
  | Ok (Some _) => true
  | _ => false
  end.

(** The text held in [self.content]: the string itself, or the array
    [np.array] makes of it when a field of the first matched line is
    itself called [content]. *)
Definition content_text (self : object) : option text :=
  match self !! "content"%string with
  | Some (PyStr s) | Some (NdStr s) => Some s
  | _ => None
  end.

(** The (value, step) records of a field whose attribute holds [vals]
    beside the steps [zs]; [zip] stops at the shorter of the two. *)
Definition pairs (vals : list num) (zs : list Z) : list (Q * Z) :=
  zip (map to_float vals) zs.

(** Ascending by value. *)
Definition value_le (a b : Q * Z) : Prop := (a.1 <= b.1)%Q.

(** The field names of a line the matcher accepts (['step'] first), and the
    fields discovered in a file: every name some matched line carries. *)
Definition fields_of (line : text) : list string :=
  match match_ line with
  | Ok (Some eq_tuples) => map fst eq_tuples
  | _ => []
  end.

Definition discovered (f : list text) : list string :=
  concat (map fields_of f).

(** The attribute [name] holds a sequence of numbers. *)
Definition holds_list (self : object) (name : string) : Prop :=
  exists l, self !! name = Some (PyList l).

Definition holds_numbers (self : object) (name : string) : Prop :=
  exists vals,
    self !! name = Some (NdArray vals) \/ self !! name = Some (PyList vals).

End OsziCar.

(** ** class OutCar *)

Fixpoint starts_with (pat s : text) : bool :=
  match pat, s with
  | [], _ => true
  | _ :: _, [] => false
  | a :: pat', b :: s' => Ascii.eqb a b && starts_with pat' s'
  end.

(** [pat in s] *)
Fixpoint contains (pat s : text) : bool :=
  starts_with pat s ||
  match s with
  | [] => false
  | _ :: s' => contains pat s'
  end.

Module OutCar.

(** ["-"*6] *)
Definition dashes : text := repeat "-"%char 6.

Definition is_header (line : text) : bool :=
  match re_match force_regex line with Some _ => true | None => false end.

Definition is_separator (line : text) : bool := contains dashes line.

(** The local variables of [__iter__]. *)
Record locals : Type := Locals {
  ion_step : Z;
  collect_begin : bool;
  collecting : bool;
  coordinates : list (list Q);
  forces : list (list Q)
}.

Definition start : locals :=
  {| ion_step := 0; collect_begin := false; collecting := false;
     coordinates := []; forces := [] |}.

(** What one [yield] hands over. *)
Abbreviation block := (Z * list (list Q) * list (list Q))%type.

(** [x, y, z, fx, fy, fz = values] *)
Definition unpack6 (values : list Q) : result (list Q * list Q) :=
  match values with
  | [x; y; z; fx; fy; fz] => Ok ([x; y; z], [fx; fy; fz])
  | _ => Raise ValueError
  end.

Section Iter.
(** [vaspy.functions.line2list] is not part of this file: the
    generator is read for any function from a line to a list of floats
    that may raise. *)
Variable line2list : text -> result (list Q).

(** The body of [for line in f]: the new locals and what is yielded. *)
Definition step (st : locals) (line : text)
    : result (locals * option block) :=
  if negb (collect_begin st) then
    if is_header line then
      Ok ({| ion_step := ion_step st + 1; collect_begin := true;
             collecting := collecting st;
             coordinates := coordinates st; forces := forces st |}, None)
    else Ok (st, None)
  else if negb (collecting st) then
    if is_separator line then
      Ok ({| ion_step := ion_step st; collect_begin := collect_begin st;
             collecting := true; coordinates := []; forces := [] |}, None)
    else Ok (st, None)
  else
    if is_separator line then
      Ok ({| ion_step := ion_step st; collect_begin := false;
             collecting := false;
             coordinates := coordinates st; forces := forces st |},
          Some (ion_step st, coordinates st, forces st))
    else
      values ← line2list line;
      '(xyz, f) ← unpack6 values;
      Ok ({| ion_step := ion_step st; collect_begin := collect_begin st;
             collecting := collecting st;
             coordinates := coordinates st ++ [xyz];
             forces := forces st ++ [f] |}, None).

(** How a traversal ends: the file is exhausted, or an exception
    reaches the consumer. *)
Inductive ending : Type :=
| Exhausted
| Raised (e : exn).

Definition yielded (y : option block) (ys : list block) : list block :=
  match y with Some r => r :: ys | None => ys end.

(** The blocks a consumer receives from the locals [st] on, in order,
    and how the traversal ends. *)
Fixpoint iter_from (st : locals) (f : list text) : list block * ending :=
  match f with
  | [] => ([], Exhausted)
  | line :: f' =>
      match step st line with
      | Ok (st', y) =>
          let (ys, e) := iter_from st' f' in (yielded y ys, e)
      | Raise e => ([], Raised e)
      end
  end.

(** [__iter__(self)], on the lines [f] of the file. *)
Definition __iter__ (f : list text) : list block * ending :=
  iter_from start f.

(** The locals after the lines [f], when no line raised. *)
Fixpoint run (st : locals) (f : list text) : result locals :=
  match f with
  | [] => Ok st
  | line :: f' => '(st', _) ← step st line; run st' f'
  end.
(** Blocks yielded so far, read off the locals: the counter, less the block
    that is open. *)
Definition closed_blocks (st : locals) : Z :=
  ion_step st - (if collect_begin st then 1 else 0).

Definition step_of (b : block) : Z := b.1.1.

(** The step indices [k+1, ..., k+n]. *)
Definition steps_after (k : Z) (n : nat) : list Z :=
  map (fun i => k + Z.of_nat i) (seq 1 n).

(** *** Well-formed blocks *)

(** A data line: not a separator, and six numbers. *)
Definition data_line (line : text) (xyz f : list Q) : Prop :=
  is_separator line = false /\
  exists x y z fx fy fz,
    line2list line = Ok [x; y; z; fx; fy; fz] /\ xyz = [x; y; z] /\ f = [fx; fy; fz].

(** The lines of one block: a header, a separator, the data lines, a
    closing separator. *)
Inductive well_formed_block : list text -> list (list Q) -> list (list Q) -> Prop :=
| wf_block header sep1 lines sep2 cs fs :
    is_header header = true ->
    is_separator sep1 = true ->
    Forall3 data_line lines cs fs ->
    is_separator sep2 = true ->
    well_formed_block (header :: sep1 :: lines ++ [sep2]) cs fs.

(** Lines between blocks: anything but a header. *)
Definition filler (lines : list text) : Prop :=
  Forall (fun line => is_header line = false) lines.

Definition idle (st : locals) : Prop :=
  collect_begin st = false /\ collecting st = false.

End Iter.

(** *** [fmax] *)

(** A force vector as Python holds it: [__iter__] builds lists, a caller
    may as well pass tuples. *)
Inductive vector : Type :=
| Tuple (l : list Q)
| List (l : list Q).

Definition items (x : vector) : list Q :=
  match x with Tuple l | List l => l end.

(** [x**2], the power of the whole vector [x]: neither a tuple nor a list
    has one. *)
Definition pow2 (x : vector) : result Q :=
  match x with
  | Tuple _ | List _ => Raise TypeError
  end.

(** [sum] of a list, from the int [0]. *)
Definition sum (l : list Q) : Q := fold_left Qplus l (inject_Z 0).

(** [lambda x: sum([x**2 for i in x])]: the comprehension evaluates
    [x**2] once for every component [i] of [x]. *)
Definition key (x : vector) : result Q :=
  squares ← mapM (fun _ => pow2 x) (items x);
  Ok (sum squares).

(** [max(atom_forces, key=...)]: the keys are taken in order, and a later
    item replaces the best one only when its key is greater. *)
Fixpoint max_from (best : vector) (kbest : Q) (l : list vector)
    : result vector :=
  match l with
  | [] => Ok best
  | x :: l' =>
      kx ← key x;
      if Qle_bool kx kbest then max_from best kbest l' else max_from x kx l'
  end.

Definition max_by_key (l : list vector) : result vector :=
  match l with
  | [] => Raise ValueError
  | x :: l' => kx ← key x; max_from x kx l'
  end.

(** [==] on vectors: a tuple never equals a list. *)
Fixpoint Qlist_eqb (l1 l2 : list Q) : bool :=
  match l1, l2 with
  | [], [] => true
  | a :: l1', b :: l2' => Qeq_bool a b && Qlist_eqb l1' l2'
  | _, _ => false
  end.

Definition vector_eqb (x y : vector) : bool :=
  match x, y with
  | Tuple l1, Tuple l2 | List l1, List l2 => Qlist_eqb l1 l2
  | _, _ => false
  end.

(** [l.index(x)] *)
Fixpoint index (l : list vector) (x : vector) : result Z :=
  match l with
  | [] => Raise ValueError
  | y :: l' =>
      if vector_eqb y x then Ok 0 else i ← index l' x; Ok (i + 1)
  end.

Definition fmax (atom_forces : list vector) : result (Z * vector) :=
  max_force ← max_by_key atom_forces;
  index ← index atom_forces max_force;
  Ok (index, max_force).

(** The selection the specification describes, to set beside [fmax]: the
    first vector whose sum of squared components is greatest. *)
Definition sq_norm (x : vector) : Q :=
  sum (map (fun q => q * q)%Q (items x)).

Fixpoint select_from (i : Z) (ibest : Z) (best : vector)
    (l : list vector) : Z * vector :=
  match l with
  | [] => (ibest, best)
  | x :: l' =>
      if Qle_bool (sq_norm x) (sq_norm best)
      then select_from (i + 1) ibest best l'
      else select_from (i + 1) i x l'
  end.

Definition select_max_spec (l : list vector) : option (Z * vector) :=
  match l with
  | [] => None
  | x :: l' => Some (select_from 1 0 x l')
  end.
End OutCar.

(** ** A tokenizer for the examples *)

(** Modelled from the spec: [vaspy.functions.line2list] is imported by
    [iter.py] and defined elsewhere.  The specification has a data line
    "tokenized into exactly six floating-point numbers", its tokens being
    "whitespace-separated numeric tokens", and a non-numeric token is an
    error: the line is cut at blanks and every token goes through [float].
    The theorems on [OutCar.__iter__] hold for any tokenizer; this one
    serves the worked examples. *)
Fixpoint split_blank (cur : text) (s : text) : list text :=
  match s with
  | [] => if is_nil cur then [] else [rev cur]
  | a :: s' =>
      if is_space a
      then (if is_nil cur then split_blank [] s' else rev cur :: split_blank [] s')
      else split_blank (a :: cur) s'
  end.

Definition line2list (line : text) : result (list Q) :=
  mapM float_of_string (split_blank [] line).

(** A line as [for line in f] delivers it, with its newline. *)
Definition ln (s : string) : text := txt s ++ [newline].

(** ** Sample files *)

Definition header_line : text :=
  ln " POSITION                                       TOTAL-FORCE (eV/Angst)".

Definition dash_line : text :=
  ln " -----------------------------------------------------------------------------------".

Definition sample_block1 : list text :=
  header_line :: dash_line ::
  [ln "      0.00000      0.00000      0.00000         0.000000      0.000000      0.012347";
   ln "      1.27000      1.27000      1.27000        -0.100000      0.300000     -0.012347"]
  ++ [dash_line].

Definition sample_block2 : list text :=
  header_line :: dash_line ::
  [ln "      0.00000      0.00000      0.00100         0.000000      0.000000      0.003000";
   ln "      1.27000      1.27000      1.26900        -0.010000      0.030000     -0.003000"]
  ++ [dash_line].

Definition drift_line : text :=
  ln "    total drift:                               -0.000001      0.000003     -0.000072".

(** An OUTCAR extract with two ionic steps. *)
Definition sample_outcar : list text :=
  [ln " FREE ENERGIE OF THE ION-ELECTRON SYSTEM (eV)"] ++ sample_block1 ++
  [drift_line] ++ sample_block2 ++ [drift_line].

(** The same extract cut inside its second block. *)
Definition cut_outcar : list text :=
  [ln " FREE ENERGIE OF THE ION-ELECTRON SYSTEM (eV)"] ++ sample_block1 ++
  [drift_line; header_line; dash_line;
   ln "      0.00000      0.00000      0.00100         0.000000      0.000000      0.003000"].

(** The locals after the cut extract: the second block is open, one data
    line collected. *)
Definition cut_locals : OutCar.locals :=
  {| OutCar.ion_step := 2; OutCar.collect_begin := true;
     OutCar.collecting := true;
     OutCar.coordinates := [[0; 0; 0.001]]%Q;
     OutCar.forces := [[0; 0; 0.003]]%Q |}.

(** A data line that has lost its last column. *)
Definition short_line : text :=
  ln "      1.27000      1.27000      1.26900        -0.010000      0.030000".


(** An OSZICAR extract: three ionic steps between lines of the electronic
    loop. *)
Definition sample_oszicar : list text :=
  [ln "       N       E                     dE             d eps       ncg     rms";
   ln "DAV:   1    -0.214638203131E+03   -0.21464E+03   -0.74046E+01   880   0.126E+01";
   ln "   1 F= -.21463821E+03 E0= -.21462279E+03  d E =-.214637E+03";
   ln "DAV:   1    -0.214683291E+03   -0.45088E-01   -0.12477E+00   928   0.165E+00";
   ln "   2 F= -.21468329E+03 E0= -.21467427E+03  d E =-.450881E-01";
   ln "   3 F= -.21465937E+03 E0= -.21465031E+03  d E =0.239300E-01"].

(** The parser [OsziCar(filename)] makes of the extract. *)
Definition sample_parser : object :=
  match OsziCar.__init__ sample_oszicar with
  | Ok self => self
  | Raise _ => ∅
  end.


(** The forces of the specification's example for [select_max]. *)
Definition sample_forces : list OutCar.vector :=
  [OutCar.Tuple [0; 0; 1]; OutCar.Tuple [0; 0; 5]; OutCar.Tuple [0; 0; -5]]%Q.


(** The step line of the specification's example,
    [3 E0= -1.23 E1=4.0e-02], cut into its assignments. *)
Definition sample_assignments : list assignment :=
  [{| a_gap := txt " "; a_name := txt "E0"; a_sep := txt " ";
      a_value := txt "-1.23" |};
   {| a_gap := txt " "; a_name := txt "E1"; a_sep := [];
      a_value := txt "4.0e-02" |}].


(** ** Notions for the further properties *)

(** *** What a match is

    The matches of a pattern, apart from the order in which the engine tries
    them: [derives r w c c'] reads "[r] matches the text [w] and turns the
    groups [c] into [c']".  The anchors match the empty text; where they may
    do so is the engine's business. *)
Inductive derives : regex -> text -> caps -> caps -> Prop :=
| derives_eps c : derives Eps [] c c
| derives_chr p a c : p a = true -> derives (Chr p) [a] c c
| derives_seq r1 r2 w1 w2 c c1 c2 :
    derives r1 w1 c c1 -> derives r2 w2 c1 c2 ->
    derives (Seq r1 r2) (w1 ++ w2) c c2
| derives_opt_skip r c : derives (Opt r) [] c c
| derives_opt_take r w c c' : derives r w c c' -> derives (Opt r) w c c'
| derives_star_nil r c : derives (Star r) [] c c
| derives_star_cons r w1 w2 c c1 c2 :
    derives r w1 c c1 -> derives (Star r) w2 c1 c2 ->
    derives (Star r) (w1 ++ w2) c c2
| derives_plus r w1 w2 c c1 c2 :
    derives r w1 c c1 -> derives (Star r) w2 c1 c2 ->
    derives (Plus r) (w1 ++ w2) c c2
| derives_group i r w c c' :
    derives r w c c' -> derives (Group i r) w c ((i, w) :: c')
| derives_bol c : derives Bol [] c c
| derives_eol c : derives Eol [] c c.

(** The groups [c'] are the groups [c] with bindings of numbers [>= i] put
    in front. *)
Definition grows (i : nat) (c c' : caps) : Prop :=
  exists d, c' = d ++ c /\ Forall (fun e => (i <= e.1)%nat) d.

(** The least group number of a pattern is at least [i]. *)
Fixpoint groups_from (i : nat) (r : regex) : Prop :=
  match r with
  | Eps | Chr _ | Bol | Eol => True
  | Seq r1 r2 => groups_from i r1 /\ groups_from i r2
  | Opt r1 | Star r1 | Plus r1 => groups_from i r1
  | Group j r1 => (i <= j)%nat /\ groups_from i r1
  end.

(** Every match of the pattern contains the character [ch]. *)
Fixpoint must (ch : ascii) (r : regex) : Prop :=
  match r with
  | Chr p => forall a, p a = true -> a = ch
  | Seq r1 r2 => must ch r1 \/ must ch r2
  | Plus r1 | Group _ r1 => must ch r1
  | Eps | Opt _ | Star _ | Bol | Eol => False
  end.

(** The record of a line: what [match] returned for it, nothing for a line
    it did not match. *)
Definition record_of_line (line : text) : list (string * num) :=
  match OsziCar.match_ line with
  | Ok (Some eq_tuples) => eq_tuples
  | _ => []
  end.

(** The numbers a record gives the field [name], in the order of the
    line. *)
Definition values_of (name : string) (eq_tuples : list (string * num))
    : list num :=
  map snd (filter (fun t => t.1 = name) eq_tuples).

(** The numbers the lines of a file give the field [name], in file
    order. *)
Definition column (name : string) (f : list text) : list num :=
  concat (map (fun line => values_of name (record_of_line line)) f).

(** The numbers an attribute holds, as a list or as an array. *)
Definition numbers_of (self : object) (name : string) : list num :=
  match self !! name with
  | Some (PyList l) | Some (NdArray l) => l
  | _ => []
  end.
(** *** Files of blocks *)

Section Files.
Import OutCar.
Variable line2list : text -> result (list Q).

(** A file of well-formed blocks, with lines that are no headers before,
    between and after them; [bs] lists the coordinates and forces of the
    blocks. *)
Inductive blocks_file
  : list text -> list (list (list Q) * list (list Q)) -> Prop :=
| blocks_end tail : filler tail -> blocks_file tail []
| blocks_next gap blk cs fs rest bs :
    filler gap -> well_formed_block line2list blk cs fs ->
    blocks_file rest bs ->
    blocks_file (gap ++ blk ++ rest) ((cs, fs) :: bs).

End Files.

(** The records of the blocks [bs], numbered from [k + 1]. *)
Fixpoint number_from (k : Z) (bs : list (list (list Q) * list (list Q)))
    : list OutCar.block :=
  match bs with
  | [] => []
  | (cs, fs) :: bs' => (k + 1, cs, fs) :: number_from (k + 1) bs'
  end.

(** As many forces as coordinates, three components each. *)
Definition aligned (cs fs : list (list Q)) : Prop :=
  length cs = length fs /\
  Forall (fun v => length v = 3%nat) cs /\
  Forall (fun v => length v = 3%nat) fs.

(** *** Lines and fields of a file *)

(** [match] returned [None] for the line. *)
Definition unmatched (line : text) : Prop := OsziCar.match_ line = Ok None.

(** The attribute can take one more number. *)
Definition appendable (self : object) (name : string) : Prop :=
  self !! name = None \/ OsziCar.holds_list self name.

(** A matched line carries the field [name] exactly once. *)
Definition carries_once (name : string) (line : text) : Prop :=
  length (values_of name (record_of_line line)) = 1%nat.

(** While a block is collected, its coordinates and forces are aligned. *)
Definition collects_aligned (st : OutCar.locals) : Prop :=
  OutCar.collecting st = true ->
  aligned (OutCar.coordinates st) (OutCar.forces st).

(** *** Numbers without a decimal point *)

(** An optional sign and one digit or more: a number written as an
    integer. *)
Inductive integer_text : text -> Prop :=
| integer_text_intro sg neg ds :
    sign_text sg neg -> digits ds -> ds <> [] -> integer_text (sg ++ ds).

(** An assignment as in [well_formed_assignment], its number written with
    a decimal point or as an integer. *)
Definition loose_assignment (p : assignment) : Prop :=
  blanks (a_gap p) /\ a_gap p <> [] /\ name_text (a_name p) /\
  blanks (a_sep p) /\
  ((exists number, float_text (a_value p) number) \/
   integer_text (a_value p)).

(** Has every [=] of the text a decimal point after it, before the next
    [=] and before the end?  [need] says that a point is still owed. *)
Fixpoint pointed (need : bool) (s : text) : bool :=
  match s with
  | [] => negb need
  | a :: s' =>
      if Ascii.eqb a "=" then negb need && pointed true s'
      else if Ascii.eqb a "." then pointed false s'
      else pointed need s'
  end.

(** Neither [=] nor the point. *)
Definition is_plain (a : ascii) : bool :=
  negb (Ascii.eqb a "=") && negb (Ascii.eqb a ".").

(** Every character the pattern can match is of the class [q]. *)
Fixpoint within (q : ascii -> bool) (r : regex) : Prop :=
  match r with
  | Chr p => forall a, p a = true -> q a = true
  | Seq r1 r2 => within q r1 /\ within q r2
  | Opt r1 | Star r1 | Plus r1 | Group _ r1 => within q r1
  | Eps | Bol | Eol => True
  end.

(** The line [1 E0= 1.5 E1=4], cut into its assignments. *)
Definition integer_assignments : list assignment :=
  [{| a_gap := txt " "; a_name := txt "E0"; a_sep := txt " ";
      a_value := txt "1.5" |};
   {| a_gap := txt " "; a_name := txt "E1"; a_sep := [];
      a_value := txt "4" |}].

(** *** The header pattern, for any whitespace class

    What [\s] matches is the interpreter's business: the six ASCII
    whitespace characters in a byte pattern, more in a pattern over
    Unicode text.  [force_regex_of space] is the pattern of [OutCar] with
    [\s] read as the class [space]; [force_regex] is [force_regex_of
    is_space]. *)
Definition force_regex_of (space : ascii -> bool) : regex :=
  Seq Bol
 (Seq (Lits (txt " POSITION"))
 (Seq (Plus (Chr space))
 (Seq (Lits (txt "TOTAL-FORCE"))
 (Seq (Star (Chr space))
 (Seq (Lits (txt "(eV/Angst)"))
      Eol))))).

(** [force_regex.match(line)], as a truth value. *)
Definition header_of (space : ascii -> bool) (line : text) : bool :=
  match re_match (force_regex_of space) line with
  | Some _ => true
  | None => false
  end.

(** The lines the pattern accepts, written out. *)
Inductive header_text (space : ascii -> bool) : text -> Prop :=
| header_intro ws1 ws2 nl :
    ws1 <> [] ->
    Forall (fun a => space a = true) ws1 ->
    Forall (fun a => space a = true) ws2 ->
    nl = [] \/ nl = [newline] ->
    header_text space
      (txt " POSITION" ++ ws1 ++ txt "TOTAL-FORCE" ++ ws2 ++
       txt "(eV/Angst)" ++ nl).

(** [\s] of a pattern over text, on the characters below 256: beside the
    ASCII whitespace, the separators 28 to 31, the next-line character 133
    and the no-break space 160. *)
Definition is_space_str (c : ascii) : bool :=
  let n := nat_of_ascii c in
  (((9 <=? n) && (n <=? 13)) || ((28 <=? n) && (n <=? 32)) ||
   (n =? 133) || (n =? 160))%nat.

(** A header line whose columns are parted by the unit separator,
    character 31. *)
Definition separator_header : text :=
  txt " POSITION" ++ [ascii_of_nat 31] ++ txt "TOTAL-FORCE (eV/Angst)" ++
  [newline].

(** *** The blocks of the specification *)

(** Modelled from the spec: the header of a block is a line matching
    [^\s*POSITION\s+TOTAL-FORCE\s*\(eV/Angst\)\s*$], with blanks allowed
    before [POSITION] and after the closing parenthesis. *)
Definition spec_header_regex : regex :=
  Seq Bol
 (Seq (Star (Chr is_space))
 (Seq (Lits (txt "POSITION"))
 (Seq (Plus (Chr is_space))
 (Seq (Lits (txt "TOTAL-FORCE"))
 (Seq (Star (Chr is_space))
 (Seq (Lits (txt "(eV/Angst)"))
 (Seq (Star (Chr is_space))
      Eol))))))).

Definition spec_is_header (line : text) : bool :=
  match re_match spec_header_regex line with Some _ => true | None => false end.

Section SpecBlocks.
Variable line2list : text -> result (list Q).

(** Modelled from the spec: a block is a header line, a dash-separator
    line (six or more consecutive dashes), one data line per entity with
    exactly six numeric tokens, and a closing dash-separator line. *)
Inductive spec_well_formed_block
  : list text -> list (list Q) -> list (list Q) -> Prop :=
| spec_wf_block header sep1 lines sep2 cs fs :
    spec_is_header header = true ->
    OutCar.is_separator sep1 = true ->
    Forall3 (OutCar.data_line line2list) lines cs fs ->
    OutCar.is_separator sep2 = true ->
    spec_well_formed_block (header :: sep1 :: lines ++ [sep2]) cs fs.

End SpecBlocks.

(** The two blocks of the extract under headers the specification admits:
    one without the blank before [POSITION], one with blanks after the
    closing parenthesis. *)
Definition flush_header : text :=
  ln "POSITION                                       TOTAL-FORCE (eV/Angst)".

Definition trailing_header : text :=
  ln " POSITION                                       TOTAL-FORCE (eV/Angst)  ".

Definition spec_block1 : list text :=
  flush_header :: dash_line ::
  [ln "      0.00000      0.00000      0.00000         0.000000      0.000000      0.012347";
   ln "      1.27000      1.27000      1.27000        -0.100000      0.300000     -0.012347"]
  ++ [dash_line].

Definition spec_block2 : list text :=
  trailing_header :: dash_line ::
  [ln "      0.00000      0.00000      0.00100         0.000000      0.000000      0.003000";
   ln "      1.27000      1.27000      1.26900        -0.010000      0.030000     -0.003000"]
  ++ [dash_line].

(** * Properties *)

(** ** The block generator *)

Section IterFacts.
Variable tok : text -> result (list Q).

Import OutCar.

Lemma steps_after_S k n :
  steps_after k (S n) = (k + 1) :: steps_after (k + 1) n.
Proof.
  unfold steps_after. simpl. f_equal.
  rewrite <- seq_shift, map_map. apply map_ext. intros i. lia.
Qed.

Lemma step_closed_blocks st line st' y :
  step tok st line = Ok (st', y) ->
  match y with
  | Some b => step_of b = closed_blocks st + 1 /\
              closed_blocks st' = closed_blocks st + 1
  | None => closed_blocks st' = closed_blocks st
  end.
Proof.
  unfold step, closed_blocks, step_of.
  destruct (collect_begin st) eqn:Hb; simpl.
  - destruct (collecting st) eqn:Hc; simpl.
    + destruct (is_separator line).
      * intros [= <- <-]. simpl. lia.
      * destruct (tok line) as [values | e]; simpl; [| discriminate].
        destruct (unpack6 values) as [[xyz f] | e]; simpl; [| discriminate].
        intros [= <- <-]. simpl. rewrite ?Hb. lia.
    + destruct (is_separator line); intros [= <- <-]; simpl; rewrite ?Hb; lia.
  - destruct (is_header line); intros [= <- <-]; simpl; rewrite ?Hb; lia.
Qed.

Lemma iter_from_steps f : forall st,
  map step_of (iter_from tok st f).1 =
  steps_after (closed_blocks st) (length (iter_from tok st f).1).
Proof.
  induction f as [| line f IH]; intros st; simpl; [reflexivity |].
  destruct (step tok st line) as [[st' y] | e] eqn:Hs; [| reflexivity].
  specialize (IH st'). apply step_closed_blocks in Hs.
  destruct (iter_from tok st' f) as [ys e]. simpl in *.
  destruct y as [b |]; simpl.
  - destruct Hs as [Hb Hc]. rewrite steps_after_S, IH, Hb, Hc. reflexivity.
  - rewrite IH, Hs. reflexivity.
Qed.

Lemma run_iter_from f : forall st st',
  run tok st f = Ok st' ->
  (iter_from tok st f).2 = Exhausted /\
  closed_blocks st' =
    closed_blocks st + Z.of_nat (length (iter_from tok st f).1).
Proof.
  induction f as [| line f IH]; intros st st'; simpl.
  - intros [= <-]. split; [reflexivity | lia].
  - destruct (step tok st line) as [[st1 y] | e] eqn:Hs; simpl; [| discriminate].
    intros Hr. apply IH in Hr. apply step_closed_blocks in Hs.
    destruct (iter_from tok st1 f) as [ys e]. simpl in *.
    destruct Hr as [-> Hr]. split; [reflexivity |].
    destruct y as [b |]; simpl; [destruct Hs as [_ Hs] |]; lia.
Qed.

Lemma iter_from_app f1 : forall st st' f2,
  run tok st f1 = Ok st' ->
  iter_from tok st (f1 ++ f2) =
  ((iter_from tok st f1).1 ++ (iter_from tok st' f2).1,
   (iter_from tok st' f2).2).
Proof.
  induction f1 as [| line f1 IH]; intros st st' f2; simpl.
  - intros [= <-]. now destruct (iter_from tok st f2).
  - destruct (step tok st line) as [[st1 y] | e] eqn:Hs; simpl; [| discriminate].
    intros Hr. rewrite (IH _ _ f2 Hr).
    destruct (iter_from tok st1 f1) as [ys e]. simpl.
    now destruct y.
Qed.

Lemma steps_after_bound k n i : i ∈ steps_after k n -> k < i <= k + Z.of_nat n.
Proof.
  unfold steps_after. rewrite list_elem_of_In, in_map_iff.
  intros (j & <- & Hj). apply in_seq in Hj. lia.
Qed.

(** After lines that raised nothing, every block handed over carries a
    step index below that of a block still open. *)
Lemma run_yielded_below f st st' :
  run tok st f = Ok st' ->
  Forall (fun b => closed_blocks st < step_of b <= closed_blocks st')
         (iter_from tok st f).1.
Proof.
  intros Hr. apply run_iter_from in Hr as [_ Hc].
  apply Forall_forall. intros b Hb.
  assert (Hin : step_of b ∈ map step_of (iter_from tok st f).1)
    by (apply list_elem_of_In, in_map, list_elem_of_In, Hb).
  rewrite iter_from_steps in Hin. apply steps_after_bound in Hin. lia.
Qed.

Lemma collect_data lines : forall st cs fs f,
  Forall3 (data_line tok) lines cs fs ->
  collect_begin st = true -> collecting st = true ->
  iter_from tok st (lines ++ f) =
  iter_from tok
    {| ion_step := ion_step st; collect_begin := true; collecting := true;
       coordinates := coordinates st ++ cs; forces := forces st ++ fs |} f.
Proof.
  induction lines as [| line lines IH];
    intros [k b c cs0 fs0] cs fs f H3 Hb Hc; simpl in Hb, Hc; subst b c.
  - inversion H3; subst. simpl. rewrite !app_nil_r. reflexivity.
  - inversion H3 as [| ? xyz fq ? cs' fs' Hd H3']; subst.
    destruct Hd as (Hsep & x & y & z & fx & fy & fz & Ht & -> & ->).
    simpl. unfold step at 1. simpl. rewrite Hsep, Ht. simpl.
    rewrite (IH _ cs' fs' f H3'); [| reflexivity ..]. simpl.
    rewrite <- !app_assoc. simpl.
    now destruct (iter_from tok _ f).
Qed.

Lemma skip_filler lines : forall st f,
  filler lines -> collect_begin st = false ->
  iter_from tok st (lines ++ f) = iter_from tok st f.
Proof.
  induction lines as [| line lines IH]; intros st f Hf Hb; [reflexivity |].
  inversion Hf as [| ? ? Hh Hf']; subst. simpl.
  unfold step at 1. rewrite Hb, Hh. simpl.
  rewrite (IH st f Hf' Hb). now destruct (iter_from tok st f).
Qed.

Lemma read_block blk cs fs st f :
  well_formed_block tok blk cs fs -> idle st ->
  exists st', idle st' /\ ion_step st' = ion_step st + 1 /\
    iter_from tok st (blk ++ f) =
    ((ion_step st + 1, cs, fs) :: (iter_from tok st' f).1,
     (iter_from tok st' f).2).
Proof.
  intros Hw [Hb Hc]. destruct Hw as [header sep1 lines sep2 cs fs Hh Hs1 H3 Hs2].
  eexists {| ion_step := ion_step st + 1; collect_begin := false;
             collecting := false; coordinates := cs; forces := fs |}.
  split; [split; reflexivity |]. split; [reflexivity |].
  simpl. unfold step at 1. rewrite Hb, Hh. simpl.
  unfold step at 1. simpl. rewrite Hc, Hs1. simpl.
  rewrite <- app_assoc.
  rewrite (collect_data lines _ cs fs _ H3); [| reflexivity ..]. simpl.
  unfold step at 1. simpl. rewrite Hs2. simpl.
  now destruct (iter_from tok _ f).
Qed.

Lemma unpack6_length values :
  length values <> 6%nat -> unpack6 values = Raise ValueError.
Proof.
  destruct values as [| x [| y [| z [| fx [| fy [| fz [| w values]]]]]]];
    simpl; intros H; try reflexivity. now contradiction H.
Qed.

(** C10. In every traversal the record at position [i] (counting from 0)
    carries the step index [i + 1]: the indices handed over are 1, 2, ...,
    k, whether the traversal ends normally or not.  Behind it: after any
    lines that raised nothing, the counter is the number of blocks handed
    over, plus one exactly while a block is open; the header pattern is
    consulted, and the counter raised, only when no block is open. *)
Theorem yielded_steps_consecutive (f : list text) :
  (forall (i : nat) (b : block),
      (__iter__ tok f).1 !! i = Some b -> step_of b = Z.of_nat (i + 1)) /\
  (forall st, run tok start f = Ok st ->
      ion_step st = Z.of_nat (length (__iter__ tok f).1) +
                    (if collect_begin st then 1 else 0)) /\
  (forall st line st' y, step tok st line = Ok (st', y) ->
      ion_step st' <> ion_step st ->
      collect_begin st = false /\ is_header line = true /\
      collect_begin st' = true /\ ion_step st' = ion_step st + 1).
Proof.
  split; [| split].
  - intros i b Hi. unfold __iter__ in *.
    assert (Hm : map step_of (iter_from tok start f).1 !! i = Some (step_of b))
      by (rewrite list_lookup_fmap, Hi; reflexivity).
    rewrite iter_from_steps in Hm. unfold steps_after in Hm.
    rewrite list_lookup_fmap in Hm.
    destruct (seq 1 (length (iter_from tok start f).1) !! i) as [j |] eqn:Hj;
      [| discriminate].
    apply lookup_seq in Hj as [-> _]. simpl in Hm.
    injection Hm as <-. unfold closed_blocks. simpl. lia.
  - intros st Hr. apply run_iter_from in Hr as [_ Hc].
    unfold closed_blocks in Hc. simpl in Hc. unfold __iter__. lia.
  - intros st line st' y. unfold step.
    destruct (collect_begin st) eqn:Hb; simpl.
    + destruct (collecting st) eqn:Hc; simpl.
      * destruct (is_separator line); [intros [= <- <-]; simpl; congruence |].
        destruct (tok line) as [values | e]; simpl; [| discriminate].
        destruct (unpack6 values) as [[xyz fq] | e]; simpl; [| discriminate].
        intros [= <- <-]. simpl. congruence.
      * destruct (is_separator line); intros [= <- <-]; simpl; congruence.
    + destruct (is_header line); intros [= <- <-]; simpl; [auto | congruence].
Qed.

(** With a block open, the records handed over so far all carry a smaller
    step index than that block. *)
Lemma yielded_before_open (f : list text) (st : locals) :
  run tok start f = Ok st ->
  collect_begin st = true ->
  Forall (fun b => step_of b < ion_step st) (__iter__ tok f).1.
Proof.
  intros Hr Hb. unfold __iter__.
  pose proof (run_yielded_below _ _ _ Hr) as Hy.
  unfold closed_blocks in Hy. rewrite Hb in Hy.
  eapply Forall_impl; [exact Hy |]. simpl. intros b Hlt. lia.
Qed.

(** C7. When the file ends with a block open (the header seen, the closing
    separator not reached) and no line raised, the traversal ends normally,
    and the open block is not handed over: it would carry the step index
    [ion_step], every record handed over carries a smaller one, and there
    is one record fewer than headers matched. *)
Theorem open_block_discarded (f : list text) (st : locals) :
  run tok start f = Ok st ->
  collect_begin st = true ->
  (__iter__ tok f).2 = Exhausted /\
  Forall (fun b => step_of b < ion_step st) (__iter__ tok f).1 /\
  Z.of_nat (length (__iter__ tok f).1) = ion_step st - 1.
Proof.
  intros Hr Hb.
  pose proof (yielded_before_open f st Hr Hb) as Hy.
  apply run_iter_from in Hr as [He Hc].
  unfold closed_blocks in Hc. rewrite Hb in Hc. simpl in Hc.
  split; [exact He |]. split; [exact Hy |].
  unfold __iter__. lia.
Qed.

(** C6. A line met while collecting that is no separator and does not
    tokenize into six numbers raises: the consumer has received the blocks
    closed before, receives the exception, and nothing more; the block
    being collected (step index [ion_step]) is not among what it
    received.  A wrong count is a [ValueError] of the unpacking, an error
    of the tokenizer is passed on. *)
Theorem malformed_data_line_aborts (before : list text) (line : text)
    (after : list text) (st : locals) :
  run tok start before = Ok st ->
  collect_begin st = true ->
  collecting st = true ->
  is_separator line = false ->
  (forall values, tok line = Ok values -> length values <> 6%nat) ->
  __iter__ tok (before ++ line :: after) =
    ((__iter__ tok before).1,
     Raised (match tok line with Ok _ => ValueError | Raise e => e end)) /\
  Forall (fun b => step_of b < ion_step st) (__iter__ tok before).1.
Proof.
  intros Hr Hb Hc Hsep Hbad. split.
  - unfold __iter__. rewrite (iter_from_app _ _ _ _ Hr). simpl.
    unfold step. rewrite Hb, Hc, Hsep. simpl.
    destruct (tok line) as [values | e] eqn:Ht; simpl.
    + rewrite (unpack6_length values (Hbad values eq_refl)). simpl.
      now rewrite app_nil_r.
    + now rewrite app_nil_r.
  - exact (yielded_before_open before st Hr Hb).
Qed.

(** C5 (amended). A file made of two well-formed blocks of two entities
    each, where the header of a block is a line the pattern of the code
    matches (one space before [POSITION], nothing after the closing
    parenthesis but the end of the line), with any lines that are not such
    headers around the blocks, yields exactly two records, with step 1 and
    step 2, each with two coordinates and two forces. *)
Theorem two_blocks_two_records (before b1 between b2 after : list text)
    (cs1 fs1 cs2 fs2 : list (list Q)) :
  filler before -> well_formed_block tok b1 cs1 fs1 -> length cs1 = 2%nat ->
  filler between -> well_formed_block tok b2 cs2 fs2 -> length cs2 = 2%nat ->
  filler after ->
  __iter__ tok (before ++ b1 ++ between ++ b2 ++ after) =
    ([(1, cs1, fs1); (2, cs2, fs2)], Exhausted) /\
  (length cs1 = 2 /\ length fs1 = 2 /\ length cs2 = 2 /\ length fs2 = 2)%nat.
Proof.
  intros H0 Hw1 Hl1 H1 Hw2 Hl2 H2. split.
  - unfold __iter__.
    rewrite skip_filler by (exact H0 || reflexivity).
    destruct (read_block b1 cs1 fs1 start (between ++ b2 ++ after) Hw1)
      as (st1 & [Hb1 Hc1] & Hi1 & ->); [split; reflexivity |].
    rewrite skip_filler by (exact H1 || exact Hb1).
    destruct (read_block b2 cs2 fs2 st1 after Hw2)
      as (st2 & [Hb2 Hc2] & Hi2 & ->); [split; assumption |].
    rewrite <- (app_nil_r after).
    rewrite skip_filler by (exact H2 || exact Hb2).
    simpl. rewrite Hi1. reflexivity.
  - assert (Hlen : forall blk cs fs,
               well_formed_block tok blk cs fs -> length cs = length fs).
    { intros blk cs fs [? ? lines ? cs' fs' _ _ H3 _].
      clear -H3. induction H3; simpl; congruence. }
    rewrite <- (Hlen _ _ _ Hw1), <- (Hlen _ _ _ Hw2). auto.
Qed.

End IterFacts.

(** The two-step extract, read with the tokenizer of the examples. *)
Lemma two_blocks_two_records_witness :
  OutCar.__iter__ line2list
    ([ln " FREE ENERGIE OF THE ION-ELECTRON SYSTEM (eV)"] ++ sample_block1 ++
     [drift_line] ++ sample_block2 ++ [drift_line]) =
    ([(1, [[0; 0; 0]; [1.27; 1.27; 1.27]]%Q,
          [[0; 0; 0.012347]; [-0.1; 0.3; -0.012347]]%Q);
      (2, [[0; 0; 0.001]; [1.27; 1.27; 1.269]]%Q,
          [[0; 0; 0.003]; [-0.01; 0.03; -0.003]]%Q)],
     OutCar.Exhausted) /\
  (length [[0; 0; 0]; [1.27; 1.27; 1.27]]%Q = 2 /\
   length [[0; 0; 0.012347]; [-0.1; 0.3; -0.012347]]%Q = 2 /\
   length [[0; 0; 0.001]; [1.27; 1.27; 1.269]]%Q = 2 /\
   length [[0; 0; 0.003]; [-0.01; 0.03; -0.003]]%Q = 2)%nat.
Proof.
  apply (two_blocks_two_records line2list).
  - repeat constructor.
  - apply OutCar.wf_block;
      [vm_compute; reflexivity | vm_compute; reflexivity | | vm_compute; reflexivity].
    repeat constructor; vm_compute; repeat eexists.
  - reflexivity.
  - repeat constructor.
  - apply OutCar.wf_block;
      [vm_compute; reflexivity | vm_compute; reflexivity | | vm_compute; reflexivity].
    repeat constructor; vm_compute; repeat eexists.
  - reflexivity.
  - repeat constructor.
Defined.

(** The cut extract: one record, a normal end. *)
Lemma open_block_discarded_witness :
  OutCar.run line2list OutCar.start cut_outcar = Ok cut_locals /\
  (OutCar.__iter__ line2list cut_outcar).2 = OutCar.Exhausted /\
  Forall (fun b => OutCar.step_of b < 2) (OutCar.__iter__ line2list cut_outcar).1 /\
  Z.of_nat (length (OutCar.__iter__ line2list cut_outcar).1) = 2 - 1.
Proof.
  split; [vm_compute; reflexivity |].
  apply (open_block_discarded line2list cut_outcar cut_locals);
    vm_compute; reflexivity.
Defined.

(** The cut extract followed by a five-column line. *)
Lemma malformed_data_line_aborts_witness :
  OutCar.__iter__ line2list (cut_outcar ++ short_line :: [dash_line; drift_line]) =
    ((OutCar.__iter__ line2list cut_outcar).1,
     OutCar.Raised (match line2list short_line with
                    | Ok _ => ValueError
                    | Raise e => e
                    end)) /\
  Forall (fun b => OutCar.step_of b < 2) (OutCar.__iter__ line2list cut_outcar).1.
Proof.
  apply (malformed_data_line_aborts line2list cut_outcar short_line
           [dash_line; drift_line] cut_locals);
    try (vm_compute; reflexivity).
  intros values Hv. vm_compute in Hv. injection Hv as <-. simpl. lia.
Defined.

(** ** The line matcher *)

(** *** Character classes *)

Ltac ascii_cases c :=
  destruct c as [[|] [|] [|] [|] [|] [|] [|] [|]];
  vm_compute; try congruence; auto.

Lemma digit_not_space c : is_digit c = true -> is_space c = false.
Proof. ascii_cases c. Qed.

Lemma digit_not_sign c : is_digit c = true -> is_sign_char c = false.
Proof. ascii_cases c. Qed.

Lemma digit_not_exp c : is_digit c = true -> is_exp_char c = false.
Proof. ascii_cases c. Qed.

Lemma digit_not_point c : is_digit c = true -> Ascii.eqb "." c = false.
Proof. ascii_cases c. Qed.

Lemma space_not_digit c : is_space c = true -> is_digit c = false.
Proof. ascii_cases c. Qed.

Lemma space_not_exp c : is_space c = true -> is_exp_char c = false.
Proof. ascii_cases c. Qed.

Lemma space_not_sign c : is_space c = true -> is_sign_char c = false.
Proof. ascii_cases c. Qed.

(** *** Greedy runs

    Each lemma reads: when the pattern meets the text it is written for and
    the continuation succeeds after it, the match succeeds with the result
    of the continuation; the greedy alternative is the first one tried. *)

Section EngineFacts.
Context {A : Type}.
Implicit Types (k : bool -> text -> caps -> option A) (x : A).

Lemma star_O m b s c k : star m 0 b s c k = k b s c.
Proof. reflexivity. Qed.

Lemma star_S m n b s c k :
  star m (S n) b s c k =
  match m b s c (fun b' s' c' =>
          if (length s' <? length s)%nat then star m n b' s' c' k else None)
  with
  | Some x => Some x
  | None => k b s c
  end.
Proof. reflexivity. Qed.

Lemma exec_chr_cons p b a s c k :
  exec (Chr p) b (a :: s) c k = if p a then k false s c else None.
Proof. reflexivity. Qed.

Lemma exec_chr_stops p b s c k : stops p s -> exec (Chr p) b s c k = None.
Proof. destruct s as [| a s]; simpl; [easy |]. now intros ->. Qed.

Lemma exec_lit a b s c k x :
  (forall b', k b' s c = Some x) -> exec (Lit a) b (a :: s) c k = Some x.
Proof. intros Hk. simpl. rewrite Ascii.eqb_refl. apply Hk. Qed.

Lemma star_run p run : forall fuel b rest c k x,
  Forall (fun a => p a = true) run -> stops p rest ->
  (length run <= fuel)%nat ->
  (forall b', k b' rest c = Some x) ->
  star (exec (Chr p)) fuel b (run ++ rest) c k = Some x.
Proof.
  induction run as [| a run IH]; intros fuel b rest c k x Hrun Hrest Hfuel Hk.
  - rewrite app_nil_l. destruct fuel as [| n]; [apply Hk |].
    rewrite star_S, exec_chr_stops by exact Hrest. apply Hk.
  - inversion Hrun as [| ? ? Ha Hrun']; subst.
    destruct fuel as [| n]; simpl in Hfuel; [lia |].
    rewrite <- app_comm_cons, star_S, exec_chr_cons, Ha.
    replace (length (run ++ rest) <? length (a :: run ++ rest))%nat with true
      by (symmetry; apply Nat.ltb_lt; simpl; lia).
    rewrite (IH n false rest c k x); auto. lia.
Qed.

Lemma exec_star_run p run b rest c k x :
  Forall (fun a => p a = true) run -> stops p rest ->
  (forall b', k b' rest c = Some x) ->
  exec (Star (Chr p)) b (run ++ rest) c k = Some x.
Proof.
  intros Hrun Hrest Hk.
  change (star (exec (Chr p)) (length (run ++ rest)) b (run ++ rest) c k = Some x).
  apply star_run; auto. rewrite length_app. lia.
Qed.

Lemma exec_plus_run p run b rest c k x :
  run <> [] ->
  Forall (fun a => p a = true) run -> stops p rest ->
  (forall b', k b' rest c = Some x) ->
  exec (Plus (Chr p)) b (run ++ rest) c k = Some x.
Proof.
  intros Hne Hrun Hrest Hk. destruct run as [| a run]; [easy |].
  inversion Hrun as [| ? ? Ha Hrun']; subst.
  change (exec (Chr p) b (a :: run ++ rest) c
            (fun b' s' c' => star (exec (Chr p)) (length s') b' s' c' k) = Some x).
  rewrite exec_chr_cons, Ha. apply star_run; auto.
  rewrite length_app. lia.
Qed.

Lemma exec_opt_take r b s c k x :
  exec r b s c k = Some x -> exec (Opt r) b s c k = Some x.
Proof. simpl. now intros ->. Qed.

Lemma exec_opt_skip r b s c k :
  exec r b s c k = None -> exec (Opt r) b s c k = k b s c.
Proof. simpl. now intros ->. Qed.

Lemma exec_group i r b w rest c k x :
  exec r b (w ++ rest) c
    (fun b' s' c' =>
       k b' s' ((i, firstn (length (w ++ rest) - length s') (w ++ rest)) :: c'))
    = Some x ->
  exec (Group i r) b (w ++ rest) c k = Some x.
Proof. intros H. exact H. Qed.

Lemma firstn_prefix (w rest : text) :
  firstn (length (w ++ rest) - length rest) (w ++ rest) = w.
Proof.
  rewrite length_app.
  replace (length w + length rest - length rest)%nat with (length w) by lia.
  rewrite firstn_app, firstn_all, Nat.sub_diag. simpl. apply app_nil_r.
Qed.

Lemma exec_sign sg neg b s c k x :
  sign_text sg neg -> stops is_sign_char s ->
  (forall b', k b' s c = Some x) ->
  exec (Opt (Chr is_sign_char)) b (sg ++ s) c k = Some x.
Proof.
  intros Hsg Hs Hk. destruct Hsg; simpl app.
  - rewrite exec_opt_skip by (apply exec_chr_stops, Hs). apply Hk.
  - apply exec_opt_take. simpl. apply Hk.
  - apply exec_opt_take. simpl. apply Hk.
Qed.

Lemma exec_seq r1 r2 b s c k :
  exec (Seq r1 r2) b s c k = exec r1 b s c (fun b' s' c' => exec r2 b' s' c' k).
Proof. reflexivity. Qed.

Lemma stops_run (p q : ascii -> bool) (run rest : text) :
  (forall a, q a = true -> p a = false) ->
  Forall (fun a => q a = true) run -> stops p rest -> stops p (run ++ rest).
Proof.
  intros Hpq Hrun Hrest. destruct Hrun as [| a run Ha _]; [exact Hrest |].
  simpl. now apply Hpq.
Qed.

Lemma delimited_stops (p : ascii -> bool) (rest : text) :
  (forall a, is_space a = true -> p a = false) ->
  delimited rest -> stops p rest.
Proof. intros Hp. destruct rest as [| a rest]; simpl; auto. Qed.

(** The exponent of a number, met by the optional tail of [float_regex]. *)
Lemma exec_exponent ex e b rest c k x :
  exponent_text ex e -> delimited rest ->
  (forall b', k b' rest c = Some x) ->
  exec (Opt (Seq (Chr is_exp_char)
                 (Seq (Opt (Chr is_sign_char)) (Plus (Chr is_digit)))))
       b (ex ++ rest) c k = Some x.
Proof.
  intros Hex Hrest Hk. destruct Hex as [| a sg neg ds Ha Hsg Hds Hne].
  - rewrite app_nil_l, exec_opt_skip; [apply Hk |].
    rewrite exec_seq. apply exec_chr_stops.
    now apply (delimited_stops _ _ space_not_exp).
  - apply exec_opt_take.
    rewrite <- app_comm_cons, <- app_assoc, exec_seq, exec_chr_cons.
    replace (is_exp_char a) with true by (destruct Ha; subst; reflexivity).
    rewrite exec_seq. apply (exec_sign sg neg); [exact Hsg | |].
    + destruct Hds as [| d ds Hd _]; [easy |]. simpl. now apply digit_not_sign.
    + intros b'. apply exec_plus_run; auto.
      now apply (delimited_stops _ _ space_not_digit).
Qed.

(** A number with a decimal point, met by [float_regex]. *)
Lemma exec_float v q b rest c k x :
  float_text v q -> delimited rest ->
  (forall b', k b' rest c = Some x) ->
  exec float_regex b (v ++ rest) c k = Some x.
Proof.
  intros Hv Hrest Hk.
  destruct Hv as [sg neg ip fp ex e Hsg Hip Hfp _ Hex].
  unfold float_regex.
  rewrite <- !app_assoc, <- app_comm_cons, <- app_assoc, exec_seq.
  apply (exec_sign sg neg); [exact Hsg | |].
  { apply (stops_run _ is_digit); [apply digit_not_sign | exact Hip |].
    reflexivity. }
  intros b1. rewrite exec_seq. apply exec_star_run; [exact Hip | reflexivity |].
  intros b2. rewrite exec_seq. apply exec_lit.
  intros b3. rewrite exec_seq. apply exec_star_run; [exact Hfp | |].
  { destruct Hex as [| a sg' neg' ds Ha _ _ _].
    - rewrite app_nil_l. now apply (delimited_stops _ _ space_not_digit).
    - simpl. destruct Ha; subst; reflexivity. }
  intros b4. now apply (exec_exponent ex e).
Qed.

Lemma exec_star_none p b s c k x :
  stops p s -> (forall b', k b' s c = Some x) ->
  exec (Star (Chr p)) b s c k = Some x.
Proof. intros Hs Hk. now apply (exec_star_run p [] b s). Qed.

Lemma float_text_head v q rest :
  float_text v q -> stops is_space (v ++ rest).
Proof.
  intros [sg neg ip fp ex e Hsg Hip _ _ _].
  destruct Hsg; simpl; try reflexivity.
  destruct Hip as [| d ip Hd _]; simpl; [reflexivity |].
  now apply digit_not_space.
Qed.

Lemma name_text_head name rest :
  name_text name -> stops is_space (name ++ rest).
Proof. intros [_ H]. destruct name as [| a name]; [easy | exact H]. Qed.

(** One assignment, met by the pattern of [eq_regex]: the name and the
    number are captured, the blanks after the number are consumed. *)
Lemma exec_eq (g : nat) name sep v q gap rest b c k x :
  name_text name -> blanks sep -> float_text v q -> blanks gap ->
  delimited (gap ++ rest) -> stops is_space rest ->
  (forall b', k b' rest ((S g, v) :: (g, name) :: c) = Some x) ->
  exec (eq_regex_at g) b (name ++ "="%char :: sep ++ v ++ gap ++ rest) c k
    = Some x.
Proof.
  intros Hname Hsep Hv Hgap Hdel Hrest Hk. unfold eq_regex_at.
  rewrite exec_seq. apply exec_star_none; [now apply name_text_head |].
  intros b1. rewrite exec_seq. apply exec_group.
  apply exec_plus_run;
    [destruct Hname as [_ H]; now destruct name | apply Hname | reflexivity |].
  intros b2. rewrite firstn_prefix, exec_seq. apply exec_lit.
  intros b3. rewrite exec_seq.
  apply exec_star_run; [exact Hsep | now apply (float_text_head v q) |].
  intros b4. rewrite exec_seq. apply exec_group.
  apply (exec_float v q); [exact Hv | exact Hdel |].
  intros b5. rewrite firstn_prefix.
  apply exec_star_run; [exact Hgap | exact Hrest | exact Hk].
Qed.

(** *** The assignments of a line *)

Lemma assignments_split ps tail :
  concat (map assignment_text ps) ++ tail = next_gap ps tail ++ after_gap ps tail.
Proof.
  induction ps as [| p ps IH]; simpl; [now rewrite app_nil_r |].
  unfold assignment_text at 1.
  rewrite <- !app_assoc, <- app_comm_cons, <- !app_assoc. now rewrite IH.
Qed.

Lemma blanks_delimited gap rest : blanks gap -> gap <> [] \/ rest = [] ->
  delimited (gap ++ rest).
Proof.
  intros Hgap [Hne | ->].
  - destruct Hgap as [| a gap Ha _]; [easy | exact Ha].
  - rewrite app_nil_r. destruct Hgap as [| a gap Ha _]; [easy | exact Ha].
Qed.

Lemma next_gap_blanks ps numbers tail :
  Forall2 well_formed_assignment ps numbers -> blanks tail ->
  blanks (next_gap ps tail) /\
  delimited (next_gap ps tail ++ after_gap ps tail).
Proof.
  intros Hps Htail. destruct Hps as [| p q ps numbers Hp _]; simpl.
  - split; [exact Htail |]. apply blanks_delimited; auto.
  - destruct Hp as (Hgap & Hne & _). split; [exact Hgap |].
    apply blanks_delimited; auto.
Qed.

Lemma after_gap_stops ps numbers tail :
  Forall2 well_formed_assignment ps numbers ->
  stops is_space (after_gap ps tail).
Proof.
  intros Hps. destruct Hps as [| p q ps numbers Hp _]; simpl; [easy |].
  destruct Hp as (_ & _ & Hname & _). now apply name_text_head.
Qed.

(** One round of the repeated group of [split_regex]. *)
Lemma exec_assignment name sep v q gap rest b c k x :
  name_text name -> blanks sep -> float_text v q -> blanks gap ->
  delimited (gap ++ rest) -> stops is_space rest ->
  (forall b', k b' rest ((3%nat, name ++ "="%char :: sep ++ v ++ gap)
                         :: (5%nat, v) :: (4%nat, name) :: c) = Some x) ->
  exec (Group 3 (eq_regex_at 4)) b
       (name ++ "="%char :: sep ++ v ++ gap ++ rest) c k = Some x.
Proof.
  intros Hname Hsep Hv Hgap Hdel Hrest Hk.
  change (exec (eq_regex_at 4) b (name ++ "="%char :: sep ++ v ++ gap ++ rest) c
            (fun b' s' c' =>
               k b' s'
                 ((3%nat,
                   firstn (length (name ++ "="%char :: sep ++ v ++ gap ++ rest)
                           - length s')
                          (name ++ "="%char :: sep ++ v ++ gap ++ rest)) :: c'))
          = Some x).
  apply (exec_eq 4 name sep v q); auto.
  intros b'.
  replace (name ++ "="%char :: sep ++ v ++ gap ++ rest)
    with ((name ++ "="%char :: sep ++ v ++ gap) ++ rest)
    by (rewrite <- !app_assoc, <- app_comm_cons, <- !app_assoc; reflexivity).
  rewrite firstn_prefix. apply Hk.
Qed.

Lemma group_extends c c' i :
  extends c c' -> (i < 3)%nat -> group c' i = group c i.
Proof.
  intros (d & -> & Hd) Hi. induction Hd as [| [j t] d Hj _ IH]; [reflexivity |].
  simpl in *. replace (i =? j)%nat with false; [exact IH |].
  symmetry. apply Nat.eqb_neq. lia.
Qed.

Lemma star_assignments ps numbers tail :
  Forall2 well_formed_assignment ps numbers -> blanks tail ->
  forall fuel c, (length (after_gap ps tail) <= fuel)%nat ->
  exists c', extends c c' /\
    forall b k x, (forall b', k b' [] c' = Some x) ->
      star (exec (Group 3 (eq_regex_at 4))) fuel b (after_gap ps tail) c k
        = Some x.
Proof.
  intros Hps Htail. induction Hps as [| p q ps numbers Hp Hps IH];
    intros fuel c Hfuel.
  - exists c. split; [exists []; split; [reflexivity | constructor] |].
    intros b k x Hk. destruct fuel as [| n]; [apply Hk |].
    rewrite star_S. simpl. apply Hk.
  - destruct (next_gap_blanks ps numbers tail Hps Htail) as [Hgap Hdel].
    pose proof (after_gap_stops ps numbers tail Hps) as Hstop.
    destruct Hp as (_ & _ & Hname & Hsep & Hv).
    cbn [after_gap] in Hfuel |- *.
    destruct fuel as [| n]; [rewrite length_app in Hfuel; simpl in Hfuel; lia |].
    set (c1 := (3%nat, a_name p ++ "="%char :: a_sep p ++ a_value p ++ next_gap ps tail)
               :: (5%nat, a_value p) :: (4%nat, a_name p) :: c).
    destruct (IH n c1) as (c' & (d & -> & Hd) & Hstar).
    { rewrite !length_app in Hfuel. simpl in Hfuel.
      rewrite !length_app in Hfuel. lia. }
    exists (d ++ c1). split.
    { exists (d ++ [(3%nat, a_name p ++ "="%char :: a_sep p ++ a_value p ++ next_gap ps tail);
                    (5%nat, a_value p); (4%nat, a_name p)]).
      split; [unfold c1; now rewrite <- app_assoc |].
      apply Forall_app. split; [exact Hd |]. repeat constructor; simpl; lia. }
    intros b k x Hk. rewrite star_S.
    match goal with
    | |- match ?e with _ => _ end = _ => assert (Hstep : e = Some x)
    end.
    { apply (exec_assignment _ _ _ q); auto.
      intros b'. fold c1.
      match goal with
      | |- (if ?t then _ else _) = _ => replace t with true
      end.
      - apply Hstar, Hk.
      - symmetry. apply Nat.ltb_lt. rewrite !length_app. simpl.
        rewrite !length_app. lia. }
    now rewrite Hstep.
Qed.

End EngineFacts.

(** *** The two patterns on a step line *)

Lemma search_from_hit r b s m :
  exec r b s [] (fun _ _ c => Some c) = Some m -> search_from r b s = Some m.
Proof. intros H. destruct s; simpl; now rewrite H. Qed.

Lemma firstn_whole (s : text) : firstn (length s - length (@nil ascii)) s = s.
Proof. simpl. rewrite Nat.sub_0_r. apply firstn_all. Qed.

Lemma search_step_line lead step ps numbers tail :
  blanks lead -> digits step -> step <> [] -> ps <> [] ->
  Forall2 well_formed_assignment ps numbers -> blanks tail ->
  exists m,
    re_search split_regex (step_line lead step ps tail) = Some m /\
    group m 1 = Some step /\ group m 2 = Some (after_gap ps tail).
Proof.
  intros Hlead Hstep Hne Hps Hwf Htail.
  destruct Hwf as [| p q ps numbers Hp Hwf]; [easy |]. clear Hps.
  destruct (next_gap_blanks ps numbers tail Hwf Htail) as [Hgap Hdel].
  pose proof (after_gap_stops ps numbers tail Hwf) as Hstop.
  destruct Hp as (Hgp & Hgne & Hname & Hsep & Hv).
  set (resid := after_gap (p :: ps) tail).
  set (c1 := [(1%nat, step)]).
  set (c2 := (3%nat, a_name p ++ "="%char :: a_sep p ++ a_value p ++ next_gap ps tail)
             :: (5%nat, a_value p) :: (4%nat, a_name p) :: c1).
  destruct (star_assignments (A := caps) ps numbers tail Hwf Htail
              (length (after_gap ps tail)) c2 (le_n _))
    as (c' & Hext & Hstar).
  exists ((2%nat, resid) :: c'). split; [| split].
  - unfold re_search. apply search_from_hit.
    unfold step_line. rewrite assignments_split. cbn [next_gap].
    fold resid. unfold split_regex.
    rewrite exec_seq. change (exec Bol true ?s ?c ?k) with (k true s c).
    cbv beta. rewrite exec_seq. apply exec_star_run; [exact Hlead | |].
    { destruct Hstep as [| d step Hd _]; [easy |]. simpl.
      now apply digit_not_space. }
    intros b1. rewrite exec_seq. apply exec_group.
    apply exec_plus_run; [exact Hne | exact Hstep | |].
    { destruct Hgp as [| a gap Ha _]; [easy |]. simpl.
      now apply space_not_digit. }
    intros b2. rewrite firstn_prefix, exec_seq. fold c1.
    apply exec_star_run; [exact Hgp | |].
    { unfold resid. simpl. now apply name_text_head. }
    intros b3. rewrite exec_seq.
    change (exec (Group 3 (eq_regex_at 4)) b3 resid c1
              (fun b' s' c' =>
                 star (exec (Group 3 (eq_regex_at 4))) (length s') b' s' c'
                   (fun b'' s'' c'' =>
                      exec Eol b'' s''
                        ((2%nat, firstn (length resid - length s'') resid) :: c'')
                        (fun _ _ c => Some c)))
            = Some ((2%nat, resid) :: c')).
    unfold resid at 1. cbn [after_gap].
    apply (exec_assignment _ _ _ q); auto.
    intros b4. fold c2. apply Hstar.
    intros b5. rewrite firstn_whole. reflexivity.
  - simpl. rewrite (group_extends c2 c' 1 Hext) by lia. reflexivity.
  - reflexivity.
Qed.

Lemma findall_from_S n r b s :
  findall_from (S n) r b s =
  match exec r b s [] (fun _ s' c => Some (s', c)) with
  | Some (s', c) =>
      (group_or_empty c 1, group_or_empty c 2) ::
      (if (length s' <? length s)%nat then findall_from n r false s'
       else match s with [] => [] | _ :: s1 => findall_from n r false s1 end)
  | None => match s with [] => [] | _ :: s1 => findall_from n r false s1 end
  end.
Proof. reflexivity. Qed.

Lemma findall_assignments ps numbers tail :
  Forall2 well_formed_assignment ps numbers -> blanks tail ->
  forall fuel b, (length (after_gap ps tail) < fuel)%nat ->
  findall_from fuel eq_regex b (after_gap ps tail) =
  map (fun p => (a_name p, a_value p)) ps.
Proof.
  intros Hps Htail. induction Hps as [| p q ps numbers Hp Hps IH];
    intros fuel b Hfuel.
  - destruct fuel as [| n]; [simpl in Hfuel; lia |]. reflexivity.
  - destruct (next_gap_blanks ps numbers tail Hps Htail) as [Hgap Hdel].
    pose proof (after_gap_stops ps numbers tail Hps) as Hstop.
    destruct Hp as (_ & _ & Hname & Hsep & Hv).
    cbn [after_gap map] in Hfuel |- *.
    destruct fuel as [| n]; [lia |].
    rewrite findall_from_S. unfold eq_regex.
    rewrite (exec_eq 1 (a_name p) (a_sep p) (a_value p) q (next_gap ps tail)
               (after_gap ps tail) b [] _
               (after_gap ps tail, [(2%nat, a_value p); (1%nat, a_name p)]));
      auto.
    match goal with
    | |- _ :: (if ?t then _ else _) = _ => replace t with true
    end.
    + fold eq_regex. rewrite IH; [reflexivity |].
      rewrite !length_app in Hfuel. simpl in Hfuel.
      rewrite !length_app in Hfuel. lia.
    + symmetry. apply Nat.ltb_lt. rewrite !length_app. simpl.
      rewrite !length_app. lia.
Qed.

(** *** The conversions *)

Lemma digit_not_minus c : is_digit c = true -> Ascii.eqb c "-" = false.
Proof. ascii_cases c. Qed.

Lemma digit_not_plus c : is_digit c = true -> Ascii.eqb c "+" = false.
Proof. ascii_cases c. Qed.

Lemma span_run (p : ascii -> bool) (run rest : text) :
  Forall (fun a => p a = true) run -> stops p rest ->
  span p (run ++ rest) = (run, rest).
Proof.
  intros Hrun Hrest. induction Hrun as [| a run Ha _ IH]; simpl.
  - destruct rest as [| a rest]; [reflexivity |]. simpl in Hrest |- *.
    now rewrite Hrest.
  - now rewrite Ha, IH.
Qed.

(** A sign followed by a digit or a point. *)
Lemma take_sign_text sg neg s :
  sign_text sg neg ->
  match s with
  | [] => True
  | a :: _ => Ascii.eqb a "-" = false /\ Ascii.eqb a "+" = false
  end ->
  take_sign (sg ++ s) = (neg, s).
Proof.
  intros Hsg Hs. destruct Hsg; try reflexivity.
  destruct s as [| a s]; [reflexivity |]. simpl. now destruct Hs as [-> ->].
Qed.

Lemma int_of_string_digits sg neg ds :
  sign_text sg neg -> digits ds -> ds <> [] ->
  int_of_string (sg ++ ds) = Ok (signed neg (digits_val ds)).
Proof.
  intros Hsg Hds Hne. unfold int_of_string.
  rewrite (take_sign_text sg neg ds Hsg).
  - rewrite <- (app_nil_r ds) at 1.
    rewrite (span_run is_digit ds []); [| exact Hds | exact I].
    destruct ds; [easy | reflexivity].
  - destruct Hds as [| d ds Hd _]; [easy |].
    split; [now apply digit_not_minus | now apply digit_not_plus].
Qed.

Lemma exponent_of_string_text ex e :
  exponent_text ex e -> exponent_of_string ex = Ok e.
Proof.
  intros [| a sg neg ds Ha Hsg Hds Hne]; [reflexivity |].
  unfold exponent_of_string.
  replace (Ascii.eqb a "e" || Ascii.eqb a "E") with true
    by (destruct Ha; subst; reflexivity).
  now apply int_of_string_digits.
Qed.

(** [float] reads every number the grammar writes. *)
Lemma float_of_string_text v q :
  float_text v q -> float_of_string v = Ok q.
Proof.
  intros [sg neg ip fp ex e Hsg Hip Hfp Hne Hex]. unfold float_of_string.
  rewrite (take_sign_text sg neg _ Hsg).
  2:{ destruct Hip as [| d ip Hd _]; simpl; [split; reflexivity |].
      split; [now apply digit_not_minus | now apply digit_not_plus]. }
  rewrite (span_run is_digit ip _ Hip) by reflexivity. simpl.
  rewrite (span_run is_digit fp ex Hfp).
  2:{ destruct Hex as [| a ? ? ? Ha _ _ _]; simpl; [exact I |].
      destruct Ha; subst; reflexivity. }
  replace (is_nil ip && is_nil fp) with false
    by (destruct ip, fp; try reflexivity; destruct Hne; easy).
  now rewrite (exponent_of_string_text ex e Hex).
Qed.

Lemma floats_of_strings ps numbers :
  Forall2 well_formed_assignment ps numbers ->
  mapM float_of_string (map a_value ps) = Ok numbers.
Proof.
  induction 1 as [| p q ps numbers Hp _ IH]; [reflexivity |].
  destruct Hp as (_ & _ & _ & _ & Hv). cbn [map mapM].
  now rewrite (float_of_string_text _ q Hv), IH.
Qed.

Lemma unzip2_map {X B C} (f : X -> B) (g : X -> C) (l : list X) :
  l <> [] ->
  OsziCar.unzip2 (map (fun p => (f p, g p)) l) = Ok (map f l, map g l).
Proof.
  destruct l as [| a l]; [easy |]. intros _. unfold OsziCar.unzip2.
  cbn [map]. now rewrite !map_map.
Qed.

(** ** The loader *)

Section LoadFacts.
Import OsziCar.

Lemma match_no_search line :
  re_search split_regex line = None -> match_ line = Ok None.
Proof. unfold match_. now intros ->. Qed.

Lemma load_lines_no_match f st :
  Forall (fun line => re_search split_regex line = None) f ->
  load_lines st f = Ok st.
Proof.
  induction 1 as [| line f Hl _ IH]; simpl; [reflexivity |].
  unfold load_line. destruct st as [self content].
  rewrite (match_no_search _ Hl). simpl. exact IH.
Qed.

(** C1 (as the code has it). On a file none of whose lines the pattern
    matches, [load] leaves the loop with [vars] never assigned and raises
    [AttributeError] when it reads [self.vars]. *)
Theorem load_no_match_raises (self : object) (f : list text) :
  self !! "vars"%string = None ->
  Forall (fun line => re_search split_regex line = None) f ->
  load self f = Raise AttributeError.
Proof.
  intros Hv Hf. unfold load. rewrite (load_lines_no_match _ _ Hf). simpl.
  unfold getattr, setattr. rewrite lookup_insert_ne by discriminate.
  rewrite Hv. reflexivity.
Qed.

Lemma load_lines_content f : forall self content self' content',
  load_lines (self, content) f = Ok (self', content') ->
  content' = content ++ concat (filter (fun line => matched line = true) f).
Proof.
  induction f as [| line f IH]; intros self content self' content'; simpl.
  - intros [= <- <-]. now rewrite app_nil_r.
  - destruct (match_ line) as [[eq_tuples |] | e] eqn:Hm; simpl;
      [| | discriminate].
    + destruct (append_numbers _ eq_tuples) as [self2 | e]; simpl;
        [| discriminate].
      intros H. apply IH in H. rewrite H.
      rewrite filter_cons_True by (unfold matched; now rewrite Hm).
      simpl. now rewrite app_assoc.
    + intros H. apply IH in H. rewrite H.
      rewrite filter_cons_False by (unfold matched; now rewrite Hm).
      reflexivity.
Qed.

Lemma to_arrays_content vars : forall self o s,
  to_arrays self vars = Ok o ->
  content_text self = Some s -> content_text o = Some s.
Proof.
  induction vars as [| [x | var] vars IH]; intros self o s; simpl.
  - now intros [= <-].
  - discriminate.
  - unfold getattr. destruct (self !! str var) as [data |] eqn:Hd; simpl;
      [| discriminate].
    intros Ho Hs. apply (IH _ _ _ Ho). clear IH Ho.
    unfold content_text, setattr in *.
    destruct (decide (str var = "content"%string)) as [Heq | Hne].
    + rewrite Heq in *. rewrite lookup_insert_eq. rewrite Hd in Hs.
      destruct data; try discriminate; simpl; exact Hs.
    + rewrite lookup_insert_ne by exact Hne. exact Hs.
Qed.

(** C8. When [load] completes, the text retained in [self.content] is the
    concatenation, in file order, of exactly the lines for which the
    matcher returned a match. *)
Theorem content_is_matched_lines (self : object) (f : list text) (o : object) :
  load self f = Ok o ->
  content_text o = Some (concat (filter (fun line => matched line = true) f)).
Proof.
  unfold load.
  destruct (load_lines (self, []) f) as [[self1 content] | e] eqn:Hl; simpl;
    [| discriminate].
  apply load_lines_content in Hl. simpl in Hl. subst content.
  destruct (getattr _ "vars"%string) as [vars |]; simpl; [| discriminate].
  destruct (iter_obj vars) as [names |]; simpl; [| discriminate].
  intros Ht. apply (to_arrays_content _ _ _ _ Ht).
  unfold content_text, setattr. now rewrite lookup_insert_eq.
Qed.

Lemma append_number_spec self name number self' :
  append_number self name number = Ok self' ->
  holds_list self' name /\ (forall k, k <> name -> self' !! k = self !! k).
Proof.
  unfold append_number, setattr, holds_list.
  destruct (self !! name) as [[l | | | | | | |] |] eqn:Hn; intros [= <-].
  - split; [eexists; apply lookup_insert_eq |].
    intros k Hk. now apply lookup_insert_ne.
  - split; [eexists; apply lookup_insert_eq |].
    intros k Hk. now apply lookup_insert_ne.
Qed.

Lemma append_number_keeps self name number self' k :
  append_number self name number = Ok self' ->
  holds_list self k -> holds_list self' k.
Proof.
  intros H Hk. apply append_number_spec in H as [Hn Hframe].
  destruct (decide (k = name)) as [-> | Hne]; [exact Hn |].
  unfold holds_list. now rewrite (Hframe k Hne).
Qed.

Lemma append_numbers_spec eq_tuples : forall self self',
  append_numbers self eq_tuples = Ok self' ->
  (forall name, name ∈ map fst eq_tuples -> holds_list self' name) /\
  (forall k, holds_list self k -> holds_list self' k) /\
  (forall k, k ∉ map fst eq_tuples -> self' !! k = self !! k).
Proof.
  induction eq_tuples as [| [name number] rest IH]; intros self self'; simpl.
  - intros [= <-]. split; [| split]; auto.
    intros name Hn. now apply elem_of_nil in Hn.
  - destruct (append_number self name number) as [self1 |] eqn:H1; simpl;
      [| discriminate].
    intros H. destruct (IH _ _ H) as (Hin & Hkeep & Hframe).
    split; [| split].
    + intros k [-> | Hk]%elem_of_cons; [| now apply Hin].
      apply Hkeep. now apply append_number_spec in H1 as [? _].
    + intros k Hk. apply Hkeep. now apply (append_number_keeps _ _ _ _ _ H1).
    + intros k [Hne Hk]%not_elem_of_cons. rewrite (Hframe k Hk).
      now apply append_number_spec in H1 as [_ ->].
Qed.

Lemma load_line_spec self content line self' content' :
  load_line (self, content) line = Ok (self', content') ->
  (forall name, name ∈ fields_of line -> holds_list self' name) /\
  (forall k, holds_list self k -> holds_list self' k) /\
  (forall k, k ∉ fields_of line -> k <> "vars"%string ->
             self' !! k = self !! k).
Proof.
  unfold load_line, fields_of.
  destruct (match_ line) as [[eq_tuples |] | e]; simpl; [| | discriminate].
  - destruct (append_numbers _ eq_tuples) as [self2 |] eqn:H2; simpl;
      [| discriminate].
    intros [= <- _]. apply append_numbers_spec in H2 as (Hin & Hkeep & Hframe).
    split; [exact Hin |]. split.
    + intros k Hk. apply Hkeep. unfold hasattr.
      destruct (self !! "vars"%string) eqn:Hv; [exact Hk |].
      destruct Hk as [l Hl]. exists l. unfold setattr.
      rewrite lookup_insert_ne; [exact Hl | congruence].
    + intros k Hk Hne. rewrite (Hframe k Hk). unfold hasattr.
      destruct (self !! "vars"%string); [reflexivity |].
      unfold setattr. now rewrite lookup_insert_ne.
  - intros [= <- _]. split; [| split]; auto.
    intros name Hn. now apply elem_of_nil in Hn.
Qed.

Lemma load_lines_spec f : forall self content self' content',
  load_lines (self, content) f = Ok (self', content') ->
  (forall name, name ∈ discovered f -> holds_list self' name) /\
  (forall k, holds_list self k -> holds_list self' k) /\
  (forall k, k ∉ discovered f -> k <> "vars"%string ->
             self' !! k = self !! k).
Proof.
  induction f as [| line f IH]; intros self content self' content'.
  - intros [= <- _]. split; [| split]; auto.
    intros name Hn. now apply elem_of_nil in Hn.
  - cbn [load_lines mbind result_bind].
    destruct (load_line (self, content) line) as [[self1 content1] |] eqn:H1;
      [| discriminate].
    intros H. apply load_line_spec in H1 as (Hin1 & Hkeep1 & Hframe1).
    apply IH in H as (Hin & Hkeep & Hframe).
    unfold discovered. cbn [map concat]. fold (discovered f).
    split; [| split].
    + intros name [Hn | Hn]%elem_of_app; [apply Hkeep, Hin1, Hn | apply Hin, Hn].
    + intros k Hk. apply Hkeep, Hkeep1, Hk.
    + intros k [Hk1 Hk]%not_elem_of_app Hne.
      rewrite (Hframe k Hk Hne). apply (Hframe1 k Hk1 Hne).
Qed.

Lemma to_arrays_numbers vars : forall self o k,
  to_arrays self vars = Ok o -> holds_numbers self k -> holds_numbers o k.
Proof.
  induction vars as [| [x | var] vars IH]; intros self o k; simpl.
  - now intros [= <-].
  - discriminate.
  - unfold getattr. destruct (self !! str var) as [data |] eqn:Hd; simpl;
      [| discriminate].
    intros Ho Hk. apply (IH _ _ _ Ho). clear IH Ho.
    unfold holds_numbers, setattr in *.
    destruct (decide (str var = k)) as [Heq | Hne].
    + subst k. rewrite lookup_insert_eq. rewrite Hd in Hk.
      destruct Hk as (vals & [[= ->] | [= ->]]); eexists; left; reflexivity.
    + rewrite lookup_insert_ne by exact Hne. exact Hk.
Qed.

Lemma to_arrays_none vars : forall self o k,
  to_arrays self vars = Ok o -> self !! k = None -> o !! k = None.
Proof.
  induction vars as [| [x | var] vars IH]; intros self o k; simpl.
  - now intros [= <-].
  - discriminate.
  - unfold getattr. destruct (self !! str var) as [data |] eqn:Hd; simpl;
      [| discriminate].
    intros Ho Hk. apply (IH _ _ _ Ho). unfold setattr.
    rewrite lookup_insert_ne; [exact Hk | congruence].
Qed.

(** After [load], every discovered field other than one called [content]
    holds its numbers, as an array when the first matched line has it, as
    a list otherwise. *)
Lemma load_discovered_numbers self0 f self name :
  load self0 f = Ok self ->
  name ∈ discovered f -> name <> "content"%string ->
  holds_numbers self name.
Proof.
  unfold load.
  destruct (load_lines (self0, []) f) as [[self1 content] |] eqn:Hl;
    cbn [mbind result_bind]; [| discriminate].
  apply load_lines_spec in Hl as (Hin & _ & _).
  destruct (getattr _ "vars"%string) as [vars |]; cbn [mbind result_bind];
    [| discriminate].
  destruct (iter_obj vars) as [names |]; cbn [mbind result_bind];
    [| discriminate].
  intros Ht Hn Hne. apply (to_arrays_numbers _ _ _ _ Ht).
  destruct (Hin name Hn) as [l Hl]. exists l. right.
  unfold setattr. rewrite lookup_insert_ne; [exact Hl | congruence].
Qed.

(** [load] creates no attribute but [vars], [content] and the discovered
    fields. *)
Lemma load_creates_fields_only self0 f self k :
  load self0 f = Ok self ->
  k ∉ discovered f -> k <> "vars"%string -> k <> "content"%string ->
  self0 !! k = None -> self !! k = None.
Proof.
  unfold load.
  destruct (load_lines (self0, []) f) as [[self1 content] |] eqn:Hl;
    cbn [mbind result_bind]; [| discriminate].
  apply load_lines_spec in Hl as (_ & _ & Hframe).
  destruct (getattr _ "vars"%string) as [vars |]; cbn [mbind result_bind];
    [| discriminate].
  destruct (iter_obj vars) as [names |]; cbn [mbind result_bind];
    [| discriminate].
  intros Ht Hk Hv Hc H0. apply (to_arrays_none _ _ _ _ Ht).
  unfold setattr. rewrite lookup_insert_ne by congruence.
  now rewrite (Hframe k Hk Hv).
Qed.

End LoadFacts.

(** ** Sorting and slicing *)

Section EsortFacts.
Import OsziCar.

#[local] Instance rec_le_total : Total rec_le.
Proof.
  intros a b. unfold rec_le.
  destruct (Qlt_le_dec a.1 b.1) as [Hlt | Hge]; [now left; left |].
  destruct (Qlt_le_dec b.1 a.1) as [Hlt' | Hge']; [now right; left |].
  assert (Heq : (a.1 == b.1)%Q) by (apply Qle_antisym; assumption).
  destruct (Z_le_gt_dec a.2 b.2).
  - left. now right.
  - right. right. split; [now symmetry | lia].
Qed.

#[local] Instance rec_le_trans : Transitive rec_le.
Proof.
  intros a b c [Hab | [Hab Hab']] [Hbc | [Hbc Hbc']]; unfold rec_le.
  - left. now apply (Qlt_trans _ b.1).
  - left. now rewrite <- Hbc.
  - left. now rewrite Hab.
  - right. split; [now rewrite Hab | lia].
Qed.

Lemma rec_le_value a b : rec_le a b -> value_le a b.
Proof.
  unfold value_le. intros [H | [H _]]; [now apply Qlt_le_weak |].
  rewrite H. apply Qle_refl.
Qed.

Lemma sorted_by_value (l : list (Q * Z)) :
  StronglySorted value_le (merge_sort rec_le l).
Proof.
  pose proof (StronglySorted_merge_sort rec_le l) as H.
  induction H as [| a l' _ IH Ha]; constructor; [exact IH |].
  eapply Forall_impl; [exact Ha |]. intros b. apply rec_le_value.
Qed.

Lemma int64_in z : in_int64 z -> int64 z = Ok z.
Proof.
  unfold in_int64, int64. intros [H1 H2].
  apply Z.leb_le in H1. apply Z.ltb_lt in H2. now rewrite H1, H2.
Qed.

Lemma record_of_numbers x z :
  in_int64 z -> record_of (ENum x, ENum (NInt z)) = Ok (to_float x, z).
Proof. intros Hz. unfold record_of. simpl. now rewrite (int64_in z Hz). Qed.

Lemma records_of_numbers vals : forall zs,
  Forall in_int64 zs ->
  mapM record_of (zip (map ENum vals) (map ENum (map NInt zs))) =
  Ok (pairs vals zs).
Proof.
  unfold pairs.
  induction vals as [| x vals IH]; intros [| z zs] Hz; try reflexivity.
  inversion Hz as [| ? ? Hz1 Hz2]; subst.
  change (mapM record_of (zip (map ENum (x :: vals))
                              (map ENum (map NInt (z :: zs)))))
    with (b ← record_of (ENum x, ENum (NInt z));
          bs ← mapM record_of (zip (map ENum vals) (map ENum (map NInt zs)));
          Ok (b :: bs)).
  rewrite (record_of_numbers x z Hz1), (IH zs Hz2). reflexivity.
Qed.

(** What [esort] computes on a field of numbers. *)
Lemma esort_numbers (self : object) (var : string) (vals : list num)
    (zs : list Z) (n : Z) (reverse : bool) :
  self !! var = Some (NdArray vals) \/ self !! var = Some (PyList vals) ->
  self !! "step"%string = Some (NdArray (map NInt zs)) ->
  Forall in_int64 zs ->
  esort self var n reverse =
  Ok (if reverse then slice_from (- n) (merge_sort rec_le (pairs vals zs))
      else slice_to n (merge_sort rec_le (pairs vals zs))).
Proof.
  intros Hv Hs Hz. unfold esort, getattr. rewrite Hs.
  assert (Hi : exists a, self !! var = Some a /\ iter_obj a = Ok (map ENum vals))
    by (destruct Hv as [-> | ->]; eexists; split; reflexivity).
  destruct Hi as (a & -> & Ha). simpl. rewrite Ha. simpl.
  rewrite (records_of_numbers vals zs Hz). reflexivity.
Qed.

(** C4 (amended). On a loaded parser whose steps are 64-bit integers, take
    a discovered field other than one called [content], and let [srted] be
    its (value, step) records in ascending order of value.  For [0 <= n]
    up to the number of records, [esort var n] returns exactly the first
    [n] records of [srted]; for [1 <= n] up to that number,
    [esort var n reverse=True] returns exactly the last [n] records of
    [srted], the [n] largest values, in the same ascending order: the flag
    chooses the end of [srted] and nothing else. *)
Theorem esort_top_n (self0 : object) (f : list text) (self : object)
    (var : string) (zs : list Z) (n : Z) :
  load self0 f = Ok self ->
  var ∈ discovered f -> var <> "content"%string ->
  self !! "step"%string = Some (NdArray (map NInt zs)) ->
  Forall in_int64 zs ->
  exists (vals : list num) (srted : list (Q * Z)),
    (self !! var = Some (NdArray vals) \/ self !! var = Some (PyList vals)) /\
    srted ≡ₚ pairs vals zs /\
    StronglySorted value_le srted /\
    (0 <= n <= Z.of_nat (length srted) ->
     exists res rest,
       esort self var n false = Ok res /\
       srted = res ++ rest /\ Z.of_nat (length res) = n /\
       StronglySorted value_le res /\
       (forall a b, a ∈ res -> b ∈ rest -> value_le a b)) /\
    (1 <= n <= Z.of_nat (length srted) ->
     exists rest res,
       esort self var n true = Ok res /\
       srted = rest ++ res /\ Z.of_nat (length res) = n /\
       StronglySorted value_le res /\
       (forall a b, a ∈ rest -> b ∈ res -> value_le a b)).
Proof.
  intros Hload Hvar Hne Hs Hz.
  destruct (load_discovered_numbers self0 f self var Hload Hvar Hne)
    as [vals Hv].
  exists vals, (merge_sort rec_le (pairs vals zs)).
  set (srted := merge_sort rec_le (pairs vals zs)).
  pose proof (sorted_by_value (pairs vals zs)) as Hsorted. fold srted in Hsorted.
  split; [exact Hv |].
  split; [apply merge_sort_Permutation |].
  split; [exact Hsorted |].
  split; intros Hn.
  - exists (take (Z.to_nat n) srted), (drop (Z.to_nat n) srted).
    rewrite (esort_numbers self var vals zs n false Hv Hs Hz).
    fold srted. unfold slice_to, clamp.
    replace (n <? 0) with false by (symmetry; apply Z.ltb_ge; lia).
    rewrite <- (take_drop (Z.to_nat n) srted) in Hsorted.
    apply StronglySorted_app in Hsorted as (Hle & Hres & _).
    split; [reflexivity |]. split; [now rewrite take_drop |].
    split; [rewrite length_take; lia |]. split; [exact Hres | exact Hle].
  - exists (take (length srted - Z.to_nat n) srted),
           (drop (length srted - Z.to_nat n) srted).
    rewrite (esort_numbers self var vals zs n true Hv Hs Hz).
    fold srted. unfold slice_from, clamp.
    replace (- n <? 0) with true by (symmetry; apply Z.ltb_lt; lia).
    replace (Z.to_nat (Z.max 0 (Z.of_nat (length srted) + - n)))
      with (length srted - Z.to_nat n)%nat by lia.
    rewrite <- (take_drop (length srted - Z.to_nat n) srted) in Hsorted.
    apply StronglySorted_app in Hsorted as (Hle & _ & Hres).
    split; [reflexivity |]. split; [now rewrite take_drop |].
    split; [rewrite length_drop; lia |]. split; [exact Hres | exact Hle].
Qed.

(** C9 (amended). Once [load] has returned, [esort] on a name that was
    never discovered and is no other attribute of the parser (not [vars],
    not [content], none the instance had before [load]) raises
    [AttributeError], at the call. *)
Theorem esort_unknown_attribute (self0 : object) (f : list text)
    (self : object) (var : string) (n : Z) (reverse : bool) :
  load self0 f = Ok self ->
  var ∉ discovered f ->
  var <> "vars"%string -> var <> "content"%string -> self0 !! var = None ->
  esort self var n reverse = Raise AttributeError.
Proof.
  intros Hload Hvar Hv Hc H0.
  pose proof (load_creates_fields_only self0 f self var Hload Hvar Hv Hc H0)
    as Hnone.
  unfold esort, getattr. now rewrite Hnone.
Qed.

End EsortFacts.

(** ** The parsers on the sample files *)

(** The loader on a file of headings only. *)
Lemma load_no_match_raises_witness :
  OsziCar.load OsziCar.new
    [ln "       N       E                     dE             d eps";
     ln "DAV:   1    -0.214638203131E+03   -0.21464E+03   -0.74046E+01"] =
  Raise AttributeError.
Proof.
  apply load_no_match_raises; [vm_compute; reflexivity |].
  repeat constructor.
Defined.

(** The text retained from the OSZICAR extract: its three step lines. *)
Lemma content_is_matched_lines_witness :
  OsziCar.content_text sample_parser =
  Some (concat (filter (fun line => OsziCar.matched line = true) sample_oszicar)).
Proof.
  apply (content_is_matched_lines OsziCar.new). reflexivity.
Defined.

(** The two lowest and the two highest [E0] of the extract. *)
Lemma esort_top_n_witness :
  exists (vals : list num) (srted : list (Q * Z)),
    (sample_parser !! "E0"%string = Some (NdArray vals) \/
     sample_parser !! "E0"%string = Some (PyList vals)) /\
    srted ≡ₚ OsziCar.pairs vals [1; 2; 3] /\
    StronglySorted OsziCar.value_le srted /\
    (0 <= 2 <= Z.of_nat (length srted) ->
     exists res rest,
       OsziCar.esort sample_parser "E0" 2 false = Ok res /\
       srted = res ++ rest /\ Z.of_nat (length res) = 2 /\
       StronglySorted OsziCar.value_le res /\
       (forall a b, a ∈ res -> b ∈ rest -> OsziCar.value_le a b)) /\
    (1 <= 2 <= Z.of_nat (length srted) ->
     exists rest res,
       OsziCar.esort sample_parser "E0" 2 true = Ok res /\
       srted = rest ++ res /\ Z.of_nat (length res) = 2 /\
       StronglySorted OsziCar.value_le res /\
       (forall a b, a ∈ rest -> b ∈ res -> OsziCar.value_le a b)).
Proof.
  apply (esort_top_n OsziCar.new sample_oszicar sample_parser "E0"
           [1; 2; 3] 2).
  - reflexivity.
  - refine (bool_decide_unpack _ _). vm_compute. exact I.
  - discriminate.
  - vm_compute. reflexivity.
  - repeat constructor; vm_compute; intros H; discriminate H.
Defined.

(** C4 (as stated) fails: asked for five records of the discovered field
    [E0], which has three values, [esort] returns three; asked for none
    from the top, it returns all three. *)
Lemma esort_not_exactly_n :
  OsziCar.__init__ sample_oszicar = Ok sample_parser /\
  "E0"%string ∈ OsziCar.discovered sample_oszicar /\
  OsziCar.esort sample_parser "E0" 5 false =
    Ok [((-214.67427)%Q, 2); ((-214.65031)%Q, 3); ((-214.62279)%Q, 1)] /\
  length [((-214.67427)%Q, 2); ((-214.65031)%Q, 3); ((-214.62279)%Q, 1)] <> 5%nat /\
  OsziCar.esort sample_parser "E0" 0 true =
    Ok [((-214.67427)%Q, 2); ((-214.65031)%Q, 3); ((-214.62279)%Q, 1)].
Proof.
  split; [reflexivity |].
  split; [refine (bool_decide_unpack _ _); vm_compute; exact I |].
  split; [vm_compute; reflexivity |].
  split; [simpl; lia | vm_compute; reflexivity].
Qed.

(** A name that is no attribute of the sample parser. *)
Lemma esort_unknown_attribute_witness :
  OsziCar.esort sample_parser "E1" 2 false = Raise AttributeError.
Proof.
  apply (esort_unknown_attribute OsziCar.new sample_oszicar).
  - reflexivity.
  - refine (bool_decide_unpack _ _). vm_compute. exact I.
  - discriminate.
  - discriminate.
  - vm_compute. reflexivity.
Defined.

(** C9 (as stated) fails: the one-line file has the fields [step] and
    [E0]; [content] was never discovered, yet [esort] finds the attribute of
    that name, pairs its first character with the step, and returns. *)
Lemma esort_content_returns :
  OsziCar.discovered [ln "1 E0= 1.0"] = ["step"; "E0"]%string /\
  (self ← OsziCar.__init__ [ln "1 E0= 1.0"];
   OsziCar.esort self "content" 1 false) = Ok [(1%Q, 1)].
Proof. split; vm_compute; reflexivity. Qed.

(** ** The largest force *)

(** The key of a vector with a component has no value: the comprehension
    squares the vector, not the component. *)
Lemma key_raises (x : OutCar.vector) :
  OutCar.items x <> [] -> OutCar.key x = Raise TypeError.
Proof.
  unfold OutCar.key. destruct x as [[| q l] | [| q l]]; simpl;
    intros H; try reflexivity; now contradiction H.
Qed.

Lemma fmax_raises (x : OutCar.vector) (l : list OutCar.vector) :
  OutCar.items x <> [] -> OutCar.fmax (x :: l) = Raise TypeError.
Proof.
  intros H. unfold OutCar.fmax. simpl. now rewrite (key_raises x H).
Qed.

(** C2 (what the code does). On [(0,0,1), (0,0,5), (0,0,-5)] the
    selection by largest sum of squares, first occurrence winning, is index
    1 with vector (0,0,5); [fmax] raises [TypeError] instead, at the first
    [x**2]. *)
Theorem fmax_sample_raises :
  OutCar.select_max_spec sample_forces = Some (1, OutCar.Tuple [0; 0; 5]%Q) /\
  OutCar.fmax sample_forces = Raise TypeError.
Proof. split; reflexivity. Qed.

(** C3 (as stated) fails: [float] would read the text [4], but the pattern
    wants a decimal point, and the matcher returns no match for
    [1 E0=4]; with the point the same line is matched. *)
Lemma match_integer_value_rejected :
  float_of_string (txt "4") = Ok 4%Q /\
  OsziCar.match_ (txt "1 E0=4") = Ok None /\
  OsziCar.match_ (txt "1 E0=4.") =
    Ok (Some [("step"%string, NInt 1); ("E0"%string, NFloat 4)]).
Proof. repeat split; vm_compute; reflexivity. Qed.

(** * Further properties *)

Section Soundness.
Context {A : Type}.
Implicit Types (k : bool -> text -> caps -> option A) (x : A).

Lemma star_sound (m : bool -> text -> caps -> (bool -> text -> caps -> option A) -> option A)
    (r : regex) :
  (forall b s c k x, m b s c k = Some x ->
     exists w s' b' c', s = w ++ s' /\ derives r w c c' /\ k b' s' c' = Some x) ->
  forall fuel b s c k x, star m fuel b s c k = Some x ->
    exists w s' b' c',
      s = w ++ s' /\ derives (Star r) w c c' /\ k b' s' c' = Some x.
Proof.
  intros Hm. induction fuel as [| n IH]; intros b s c k x H.
  - exists [], s, b, c. split; [reflexivity |]. split; [constructor | exact H].
  - cbn [star] in H.
    destruct (m b s c _) as [y |] eqn:Hy.
    + injection H as ->. apply Hm in Hy as (w1 & s1 & b1 & c1 & -> & Hd1 & Hk).
      destruct (length s1 <? length (w1 ++ s1))%nat; [| discriminate].
      apply IH in Hk as (w2 & s2 & b2 & c2 & -> & Hd2 & Hk).
      exists (w1 ++ w2), s2, b2, c2. split; [now rewrite app_assoc |].
      split; [econstructor; eassumption | exact Hk].
    + exists [], s, b, c. split; [reflexivity |].
      split; [constructor | exact H].
Qed.

(** Whatever the engine finds is a match. *)
Lemma exec_sound r : forall b s c k x,
  exec r b s c k = Some x ->
  exists w s' b' c', s = w ++ s' /\ derives r w c c' /\ k b' s' c' = Some x.
Proof.
  induction r as [| p | r1 IH1 r2 IH2 | r1 IH1 | r1 IH1 | r1 IH1 | i r1 IH1 | |];
    intros b s c k x H; cbn [exec] in H.
  - exists [], s, b, c. split; [reflexivity |]. split; [constructor | exact H].
  - destruct s as [| a s]; [discriminate |].
    destruct (p a) eqn:Hp; [| discriminate].
    exists [a], s, false, c. split; [reflexivity |].
    split; [now constructor | exact H].
  - apply IH1 in H as (w1 & s1 & b1 & c1 & -> & Hd1 & H).
    apply IH2 in H as (w2 & s2 & b2 & c2 & -> & Hd2 & H).
    exists (w1 ++ w2), s2, b2, c2. split; [now rewrite app_assoc |].
    split; [econstructor; eassumption | exact H].
  - destruct (exec r1 b s c k) as [y |] eqn:Hy.
    + injection H as ->. apply IH1 in Hy as (w & s' & b' & c' & -> & Hd & Hk).
      exists w, s', b', c'. split; [reflexivity |].
      split; [now constructor | exact Hk].
    + exists [], s, b, c. split; [reflexivity |].
      split; [constructor | exact H].
  - now apply (star_sound (exec r1) r1 IH1) in H.
  - apply IH1 in H as (w1 & s1 & b1 & c1 & -> & Hd1 & H).
    apply (star_sound (exec r1) r1 IH1) in H
      as (w2 & s2 & b2 & c2 & -> & Hd2 & H).
    exists (w1 ++ w2), s2, b2, c2. split; [now rewrite app_assoc |].
    split; [econstructor; eassumption | exact H].
  - apply IH1 in H as (w & s' & b' & c' & -> & Hd & H).
    rewrite firstn_prefix in H.
    exists w, s', b', ((i, w) :: c'). split; [reflexivity |].
    split; [now constructor | exact H].
  - destruct b; [| discriminate].
    exists [], s, true, c. split; [reflexivity |]. split; [constructor | exact H].
  - exists [], s, b, c. split; [reflexivity |]. split; [constructor |].
    destruct s as [| a [| a' s]]; try discriminate; [exact H |].
    destruct (Ascii.eqb a newline); [exact H | discriminate].
Qed.

End Soundness.

Lemma grows_refl i c : grows i c c.
Proof. exists []. split; [reflexivity | constructor]. Qed.

Lemma grows_trans i c1 c2 c3 : grows i c1 c2 -> grows i c2 c3 -> grows i c1 c3.
Proof.
  intros (d1 & -> & H1) (d2 & -> & H2). exists (d2 ++ d1).
  split; [now rewrite app_assoc |]. apply Forall_app. now split.
Qed.

Lemma derives_grows i r w c c' :
  derives r w c c' -> groups_from i r -> grows i c c'.
Proof.
  induction 1 as [| | ? ? ? ? ? ? ? _ IH1 _ IH2 | | ? ? ? ? _ IH
                  | | ? ? ? ? ? ? _ IH1 _ IH2 | ? ? ? ? ? ? _ IH1 _ IH2
                  | j ? ? ? ? _ IH | |];
    cbn [groups_from]; intros Hg; try apply grows_refl; auto.
  - destruct Hg. eapply grows_trans; eauto.
  - eapply grows_trans; eauto.
  - eapply grows_trans; eauto.
  - destruct Hg as [Hj Hg]. apply IH in Hg as (d & -> & Hd).
    exists ((j, w) :: d). split; [reflexivity |]. now constructor.
Qed.

Lemma group_grows i j c c' :
  grows i c c' -> (j < i)%nat -> group c' j = group c j.
Proof.
  intros (d & -> & Hd) Hj. induction Hd as [| [n t] d Hn _ IH]; [reflexivity |].
  simpl in *. replace (j =? n)%nat with false; [exact IH |].
  symmetry. apply Nat.eqb_neq. lia.
Qed.

(** A repeated class matches characters of the class and binds nothing. *)
Lemma derives_star_class p w c c' :
  derives (Star (Chr p)) w c c' -> c' = c /\ Forall (fun a => p a = true) w.
Proof.
  remember (Star (Chr p)) as r eqn:Hr. induction 1; try discriminate.
  - now split.
  - injection Hr as ->. destruct (IHderives2 eq_refl) as [-> Hw2].
    inversion H; subst. split; [reflexivity |]. now constructor.
Qed.

Lemma derives_plus_class p w c c' :
  derives (Plus (Chr p)) w c c' ->
  c' = c /\ Forall (fun a => p a = true) w /\ w <> [].
Proof.
  inversion 1 as [| | | | | | | ? w1 w2 ? c1 ? H1 H2 | | |]; subst.
  inversion H1; subst. apply derives_star_class in H2 as [-> Hw2].
  split; [reflexivity |]. split; [now constructor | discriminate].
Qed.

Lemma derives_must ch r w c c' : derives r w c c' -> must ch r -> ch ∈ w.
Proof.
  induction 1 as [| p a c Hp | ? ? ? ? ? ? ? _ IH1 _ IH2 | | | |
                  | ? ? ? ? ? ? _ IH1 _ _ | ? ? ? ? ? _ IH | |];
    cbn [must]; intros Hm; try easy.
  - rewrite (Hm a Hp). apply elem_of_cons; now left.
  - apply elem_of_app. destruct Hm; [left | right]; auto.
  - apply elem_of_app. left. auto.
  - auto.
Qed.

(** *** What the matcher returns *)

Section MatchFacts.
Import OsziCar.

Lemma search_not_at_start (s : text) : search_from split_regex false s = None.
Proof. induction s as [| a s IH]; [reflexivity |]. exact IH. Qed.

Lemma search_anchored line m :
  re_search split_regex line = Some m ->
  exec split_regex true line [] (fun _ _ c => Some c) = Some m.
Proof.
  unfold re_search. destruct line as [| a line]; cbn [search_from];
    destruct (exec split_regex true _ [] _) as [c |]; try congruence.
  now rewrite search_not_at_start.
Qed.

(** What [split_regex] has found on a line: blanks, the digits of group 1,
    blanks, the text of group 2, itself one assignment or more. *)
Lemma split_match_inv line m :
  re_search split_regex line = Some m ->
  exists lead ds gap resid rest c3,
    line = lead ++ ds ++ gap ++ resid ++ rest /\
    blanks lead /\ digits ds /\ ds <> [] /\ blanks gap /\
    derives (Plus (Group 3 (eq_regex_at 4))) resid [(1%nat, ds)] c3 /\
    m = (2%nat, resid) :: c3.
Proof.
  intros H. apply search_anchored, exec_sound in H
    as (w & rest & b' & c' & -> & Hd & [= <-]).
  unfold split_regex in Hd.
  inversion Hd as [| | ? ? w0 w1 ? c0 ? H0 H1 | | | | | | | |]; subst; clear Hd.
  inversion H0; subst; clear H0.
  inversion H1 as [| | ? ? lead w2 ? c1 ? Hl H2 | | | | | | | |]; subst; clear H1.
  apply derives_star_class in Hl as [-> Hlead].
  inversion H2 as [| | ? ? ds w3 ? c2 ? Hds H3 | | | | | | | |]; subst; clear H2.
  inversion Hds as [| | | | | | | | ? ? ? ? c2' Hds' | |]; subst; clear Hds.
  apply derives_plus_class in Hds' as (-> & Hdigits & Hne).
  inversion H3 as [| | ? ? gap w4 ? c3 ? Hg H4 | | | | | | | |]; subst; clear H3.
  apply derives_star_class in Hg as [-> Hgap].
  inversion H4 as [| | ? ? resid w5 ? c4 ? Hr H5 | | | | | | | |]; subst; clear H4.
  inversion H5; subst; clear H5.
  inversion Hr as [| | | | | | | | ? ? ? ? c5 Hr' | |]; subst; clear Hr.
  exists lead, ds, gap, resid, rest, c5.
  rewrite app_nil_l, app_nil_r, <- !app_assoc. auto 10.
Qed.

Lemma split_match_groups line m :
  re_search split_regex line = Some m ->
  exists ds resid,
    digits ds /\ ds <> [] /\ group m 1 = Some ds /\ group m 2 = Some resid /\
    "="%char ∈ resid /\ "."%char ∈ resid /\
    exists a b, line = a ++ resid ++ b.
Proof.
  intros H. apply split_match_inv in H
    as (lead & ds & gap & resid & rest & c3 & -> & _ & Hds & Hne & _ & Hd & ->).
  exists ds, resid. split; [exact Hds |]. split; [exact Hne |].
  assert (Hg : grows 3 [(1%nat, ds)] c3).
  { apply (derives_grows 3 _ _ _ _ Hd). cbn. lia. }
  split; [cbn [group Nat.eqb]; now rewrite (group_grows 3 1 _ _ Hg) by lia |].
  split; [reflexivity |].
  split.
  { apply (derives_must _ _ _ _ _ Hd). unfold eq_regex_at, Lit. cbn.
    right; right; left. intros a Ha. symmetry. now apply Ascii.eqb_eq. }
  split.
  { apply (derives_must _ _ _ _ _ Hd). unfold eq_regex_at, float_regex, Lit.
    cbn. do 4 right. left. right; right; left.
    intros a Ha. symmetry. now apply Ascii.eqb_eq. }
  exists (lead ++ ds ++ gap), rest. now rewrite <- !app_assoc.
Qed.

Lemma int_of_string_raises s e : int_of_string s = Raise e -> e = ValueError.
Proof.
  unfold int_of_string. destruct (take_sign s) as [neg s1].
  destruct (span is_digit s1) as [ds rest].
  destruct (is_nil ds || negb (is_nil rest)); congruence.
Qed.

Lemma float_of_string_raises s e : float_of_string s = Raise e -> e = ValueError.
Proof.
  unfold float_of_string, exponent_of_string.
  destruct (take_sign s) as [neg s1]. destruct (span is_digit s1) as [ip s2].
  destruct (match s2 with [] => _ | _ => _ end) as [fp s3].
  destruct (is_nil ip && is_nil fp); [congruence |].
  destruct s3 as [| a s3]; [discriminate |].
  destruct (Ascii.eqb a "e" || Ascii.eqb a "E"); [| cbn; congruence].
  destruct (int_of_string s3) eqn:Hi; [discriminate |].
  apply int_of_string_raises in Hi as ->. cbn. congruence.
Qed.

Lemma mapM_raises {X Y} (f : X -> result Y) l e :
  mapM f l = Raise e -> exists a, a ∈ l /\ f a = Raise e.
Proof.
  induction l as [| a l IH]; [discriminate |]. cbn [mapM mbind result_bind].
  destruct (f a) eqn:Ha.
  - destruct (mapM f l); [discriminate |]. intros [= <-].
    destruct (IH eq_refl) as (a' & Hin & Ha'). exists a'.
    split; [apply elem_of_cons; now right | exact Ha'].
  - intros [= <-]. exists a. split; [apply elem_of_cons; now left | exact Ha].
Qed.

Lemma mapM_length {X Y} (f : X -> result Y) l l' :
  mapM f l = Ok l' -> length l' = length l.
Proof.
  revert l'. induction l as [| a l IH]; intros l'; cbn [mapM mbind result_bind].
  - now intros [= <-].
  - destruct (f a); [| discriminate]. destruct (mapM f l); [| discriminate].
    intros [= <-]. simpl. f_equal. now apply IH.
Qed.

Lemma digit_val_nonneg c : is_digit c = true -> 0 <= digit_val c <= 9.
Proof. ascii_cases c. all: unfold Z.le; simpl; split; discriminate. Qed.

Lemma digits_val_nonneg ds : digits ds -> 0 <= digits_val ds.
Proof.
  intros Hds. unfold digits_val.
  assert (H : forall acc, 0 <= acc ->
            0 <= fold_left (fun acc c => 10 * acc + digit_val c) ds acc).
  { induction Hds as [| d ds Hd _ IH]; intros acc Hacc; [exact Hacc |].
    simpl. apply IH. pose proof (digit_val_nonneg d Hd). lia. }
  apply H. lia.
Qed.

(** X1. A line without a decimal point, or without an [=], is never
    matched: [match] returns [None] for it, and raises nothing. *)
Theorem match_skips_without_point (line : text) :
  "."%char ∉ line \/ "="%char ∉ line -> match_ line = Ok None.
Proof.
  intros Hnot. unfold match_.
  destruct (re_search split_regex line) as [m |] eqn:Hm; [| reflexivity].
  apply split_match_groups in Hm
    as (ds & resid & _ & _ & _ & _ & Heq & Hpt & a & b & ->).
  destruct Hnot as [H | H]; exfalso; apply H;
    apply elem_of_app; right; apply elem_of_app; now left.
Qed.

(** What a returned record is made of. *)
Lemma match_returns (line : text) (l : list (string * num)) :
  match_ line = Ok (Some l) ->
  exists ds (tuples : list (text * text)) numbers,
    digits ds /\ ds <> [] /\ tuples <> [] /\ length numbers = length tuples /\
    l = ("step"%string, NInt (digits_val ds)) ::
        zip (map (fun name => str (remove_spaces name)) (map fst tuples))
            (map NFloat numbers).
Proof.
  unfold match_.
  destruct (re_search split_regex line) as [m |] eqn:Hm; [| discriminate].
  apply split_match_groups in Hm as (ds & resid & Hds & Hne & Hg1 & Hg2 & _).
  unfold group_text. rewrite Hg1, Hg2. cbn [mbind result_bind].
  pose proof (int_of_string_digits [] false ds sign_none Hds Hne) as Hint.
  change ([] ++ ds) with ds in Hint. rewrite Hint. cbn [signed].
  destruct (findall eq_regex resid) as [| t ts] eqn:Hf; [discriminate |].
  change (unzip2 (t :: ts)) with (Ok (map fst (t :: ts), map snd (t :: ts))).
  assert (Hlen : t :: ts <> []) by discriminate.
  revert Hlen. generalize (t :: ts) as tuples. intros tuples Hlen.
  cbn [mbind result_bind].
  destruct (mapM float_of_string (map snd tuples)) as [numbers |] eqn:Hn;
    [| discriminate].
  intros [= <-]. apply mapM_length in Hn. rewrite length_map in Hn.
  exists ds, tuples, numbers. auto.
Qed.

Lemma match_raises (line : text) (e : exn) :
  match_ line = Raise e -> e = ValueError.
Proof.
  unfold match_.
  destruct (re_search split_regex line) as [m |] eqn:Hm; [| discriminate].
  apply split_match_groups in Hm as (ds & resid & Hds & Hne & Hg1 & Hg2 & _).
  unfold group_text. rewrite Hg1, Hg2. cbn [mbind result_bind].
  pose proof (int_of_string_digits [] false ds sign_none Hds Hne) as Hint.
  change ([] ++ ds) with ds in Hint. rewrite Hint. cbn [signed].
  destruct (findall eq_regex resid) as [| t ts] eqn:Hf; [now intros [= <-] |].
  change (unzip2 (t :: ts)) with (Ok (map fst (t :: ts), map snd (t :: ts))).
  generalize (t :: ts) as tuples. intros tuples. cbn [mbind result_bind].
  destruct (mapM float_of_string (map snd tuples)) as [numbers |] eqn:Hn;
    [discriminate |].
  intros [= <-]. apply mapM_raises in Hn as (a & _ & Ha).
  now apply float_of_string_raises in Ha.
Qed.

(** X2. A record [match] returns starts with [step], a non-negative
    integer, and goes on with one field or more; every field is a float
    under a name without spaces. *)
Theorem match_record_shape (line : text) (l : list (string * num)) :
  match_ line = Ok (Some l) ->
  exists z fields,
    l = ("step"%string, NInt z) :: fields /\ 0 <= z /\ fields <> [] /\
    Forall (fun f => (" "%char ∉ list_ascii_of_string (fst f)) /\
                     exists q, snd f = NFloat q) fields.
Proof.
  intros (ds & tuples & numbers & Hds & _ & Hne & Hlen & ->)%match_returns.
  eexists _, _. split; [reflexivity |].
  split; [now apply digits_val_nonneg |]. split.
  - destruct tuples, numbers; try discriminate. now contradiction Hne.
  - apply Forall_forall. intros [name v] Hin. split.
    + apply elem_of_zip_l in Hin.
      apply list_elem_of_fmap in Hin as (w & -> & _).
      cbn [fst]. unfold str. rewrite list_ascii_of_string_of_list_ascii.
      unfold remove_spaces. intros [Hsp _]%list_elem_of_filter.
      exact Hsp.
    + apply elem_of_zip_r in Hin. apply list_elem_of_fmap in Hin as (q & -> & _).
      now exists q.
Qed.

(** X3. [match] raises on no line but one its pattern matches, and the
    only exception it raises is [ValueError] (of a number text the pattern
    lets through and [float] refuses). *)
Theorem match_raises_only_ValueError (line : text) (e : exn) :
  match_ line = Raise e ->
  e = ValueError /\ exists m, re_search split_regex line = Some m.
Proof.
  intros H. split; [exact (match_raises line e H) |].
  unfold match_ in H.
  destruct (re_search split_regex line) as [m |]; [now exists m | discriminate].
Qed.

End MatchFacts.

(** *** What [load] stores *)

Section LoadStore.
Import OsziCar.

Lemma append_number_numbers self name number self' k :
  append_number self name number = Ok self' ->
  numbers_of self' k =
  numbers_of self k ++ (if decide (name = k) then [number] else []).
Proof.
  unfold append_number, setattr, numbers_of.
  destruct (self !! name) as [[l | | | | | | |] |] eqn:Hn; intros [= <-].
  - destruct (decide (name = k)) as [<- | Hne].
    + now rewrite lookup_insert_eq, Hn.
    + rewrite lookup_insert_ne by exact Hne. now rewrite app_nil_r.
  - destruct (decide (name = k)) as [<- | Hne].
    + now rewrite lookup_insert_eq, Hn.
    + rewrite lookup_insert_ne by exact Hne. now rewrite app_nil_r.
Qed.

Lemma append_numbers_numbers eq_tuples : forall self self' k,
  append_numbers self eq_tuples = Ok self' ->
  numbers_of self' k = numbers_of self k ++ values_of k eq_tuples.
Proof.
  induction eq_tuples as [| [name number] rest IH]; intros self self' k.
  - intros [= <-]. unfold values_of. simpl. now rewrite app_nil_r.
  - cbn [append_numbers mbind result_bind].
    destruct (append_number self name number) as [self1 |] eqn:H1;
      [| discriminate].
    intros H. rewrite (IH _ _ k H), (append_number_numbers _ _ _ _ k H1).
    rewrite <- app_assoc. f_equal. unfold values_of.
    rewrite filter_cons. cbn [fst].
    destruct (decide (name = k)); reflexivity.
Qed.

Lemma load_line_numbers self content line self' content' k :
  load_line (self, content) line = Ok (self', content') ->
  numbers_of self' k = numbers_of self k ++ values_of k (record_of_line line).
Proof.
  unfold load_line, record_of_line.
  destruct (match_ line) as [[eq_tuples |] | e]; cbn [mbind result_bind];
    [| | discriminate].
  - destruct (append_numbers _ eq_tuples) as [self2 |] eqn:H2;
      cbn [mbind result_bind]; [| discriminate].
    intros [= <- _]. rewrite (append_numbers_numbers _ _ _ k H2).
    f_equal. unfold hasattr.
    destruct (self !! "vars"%string) eqn:Hv; [reflexivity |].
    unfold numbers_of, setattr.
    destruct (decide ("vars"%string = k)) as [<- | Hne].
    + now rewrite lookup_insert_eq, Hv.
    + now rewrite lookup_insert_ne.
  - intros [= <- _]. unfold values_of. simpl. now rewrite app_nil_r.
Qed.

Lemma load_lines_numbers f : forall self content self' content' k,
  load_lines (self, content) f = Ok (self', content') ->
  numbers_of self' k = numbers_of self k ++ column k f.
Proof.
  induction f as [| line f IH]; intros self content self' content' k.
  - intros [= <- _]. unfold column. simpl. now rewrite app_nil_r.
  - cbn [load_lines mbind result_bind].
    destruct (load_line (self, content) line) as [[self1 content1] |] eqn:H1;
      [| discriminate].
    intros H. rewrite (IH _ _ _ _ k H), (load_line_numbers _ _ _ _ _ k H1).
    unfold column. cbn [map concat]. now rewrite app_assoc.
Qed.

(** [np.array] keeps the numbers, as floats. *)
Lemma np_array_floats v :
  match np_array v with
  | NdArray l' =>
      exists l, (v = PyList l \/ v = NdArray l) /\
                map to_float l' = map to_float l /\
                (Forall (fun x => is_int x = false) l -> l' = l)
  | PyList _ => False
  | _ => match v with PyList _ | NdArray _ => False | _ => True end
  end.
Proof.
  assert (H : forall l,
    map to_float (if forallb is_int l then l
                  else map (fun x => NFloat (to_float x)) l) = map to_float l /\
    (Forall (fun x => is_int x = false) l ->
     (if forallb is_int l then l else map (fun x => NFloat (to_float x)) l) = l)).
  { intros l. destruct (forallb is_int l); [now split |]. split.
    - rewrite map_map. now apply map_ext.
    - intros Hf. induction Hf as [| [z | q] l Hx _ IH]; simpl;
        try discriminate; [reflexivity | now rewrite IH]. }
  destruct v as [l | | | l | | | |]; simpl; auto.
  - exists l. destruct (H l). auto.
  - exists l. destruct (H l). auto.
Qed.

Lemma to_arrays_floats vars : forall self o k,
  to_arrays self vars = Ok o ->
  map to_float (numbers_of o k) = map to_float (numbers_of self k) /\
  (Forall (fun x => is_int x = false) (numbers_of self k) ->
   numbers_of o k = numbers_of self k).
Proof.
  induction vars as [| [x | var] vars IH]; intros self o k;
    cbn [to_arrays mbind result_bind].
  - intros [= <-]. now split.
  - discriminate.
  - unfold getattr. destruct (self !! str var) as [data |] eqn:Hd;
      cbn [mbind result_bind]; [| discriminate].
    intros Ho. destruct (IH _ _ k Ho) as [Hf He]. clear IH Ho.
    assert (Hstep :
      map to_float (numbers_of (setattr self (str var) (np_array data)) k) =
        map to_float (numbers_of self k) /\
      (Forall (fun x => is_int x = false) (numbers_of self k) ->
       numbers_of (setattr self (str var) (np_array data)) k = numbers_of self k)).
    { unfold numbers_of, setattr.
      destruct (decide (str var = k)) as [<- | Hne];
        [| rewrite lookup_insert_ne by exact Hne; now split].
      rewrite lookup_insert_eq, Hd. pose proof (np_array_floats data) as Hn.
      destruct (np_array data) as [l' | | | l' | | | |]; try easy;
        try (destruct data; try easy; now split).
      destruct Hn as (l & [-> | ->] & Hfl & Hex); now split. }
    destruct Hstep as [Hf1 He1]. split; [now rewrite Hf |].
    intros Hall. rewrite He; [now apply He1 |]. rewrite He1; auto.
Qed.

Lemma record_fields_float line name :
  name <> "step"%string ->
  Forall (fun x => is_int x = false) (values_of name (record_of_line line)).
Proof.
  intros Hne. unfold record_of_line.
  destruct (match_ line) as [[l |] | e] eqn:Hm; try constructor.
  apply match_returns in Hm
    as (ds & tuples & numbers & _ & _ & _ & _ & ->).
  unfold values_of. rewrite filter_cons. cbn [fst].
  destruct (decide ("step"%string = name)); [congruence |].
  generalize (map (fun name0 => str (remove_spaces name0)) (map fst tuples)).
  intros names. revert numbers.
  induction names as [| nm names IH]; intros [| q numbers]; try constructor.
  cbn [map zip zip_with]. rewrite filter_cons. cbn [fst].
  destruct (decide (nm = name)); [| apply IH].
  cbn [map snd]. constructor; [reflexivity | apply IH].
Qed.

Lemma column_floats f name :
  name <> "step"%string -> Forall (fun x => is_int x = false) (column name f).
Proof.
  intros Hne. unfold column. induction f as [| line f IH]; [constructor |].
  cbn [map concat]. apply Forall_app. split; [| exact IH].
  now apply record_fields_float.
Qed.

(** X4. After [load], the attribute of a field the instance did not have
    before holds, as floats, exactly the numbers the matched lines give
    that field, in file order; and for every field but [step] it holds
    those very numbers. *)
Theorem load_field_column (self0 : object) (f : list text) (o : object)
    (name : string) :
  load self0 f = Ok o ->
  self0 !! name = None -> name <> "content"%string ->
  map to_float (numbers_of o name) = map to_float (column name f) /\
  (name <> "step"%string -> numbers_of o name = column name f).
Proof.
  unfold load.
  destruct (load_lines (self0, []) f) as [[self1 content] |] eqn:Hl;
    cbn [mbind result_bind]; [| discriminate].
  apply (load_lines_numbers _ _ _ _ _ name) in Hl.
  destruct (getattr _ "vars"%string) as [vars |]; cbn [mbind result_bind];
    [| discriminate].
  destruct (iter_obj vars) as [names |]; cbn [mbind result_bind];
    [| discriminate].
  intros Ht H0 Hne.
  assert (H2 : numbers_of (setattr self1 "content" (PyStr content)) name =
               column name f).
  { unfold numbers_of at 1, setattr. rewrite lookup_insert_ne by congruence.
    fold (numbers_of self1 name). rewrite Hl. unfold numbers_of. now rewrite H0. }
  destruct (to_arrays_floats _ _ _ name Ht) as [Hf He]. rewrite H2 in Hf, He.
  split; [exact Hf |]. intros Hs. apply He. now apply column_floats.
Qed.

(** *** The schema *)

Lemma load_lines_skip pre : forall st f,
  Forall unmatched pre -> load_lines st (pre ++ f) = load_lines st f.
Proof.
  induction pre as [| line pre IH]; intros st f Hpre; [reflexivity |].
  inversion Hpre as [| ? ? Hl Hpre']; subst.
  cbn [app load_lines mbind result_bind]. unfold load_line at 1.
  destruct st as [self content]. rewrite Hl. cbn [mbind result_bind].
  now apply IH.
Qed.

Lemma append_number_keeps_other self name number self' k v :
  append_number self name number = Ok self' ->
  self !! k = Some v -> (forall l, v <> PyList l) ->
  self' !! k = Some v /\ name <> k.
Proof.
  intros H Hk Hv.
  assert (Hne : name <> k).
  { intros ->. unfold append_number in H. rewrite Hk in H.
    destruct v; try discriminate. now apply (Hv l). }
  split; [| exact Hne].
  apply append_number_spec in H as [_ Hframe]. rewrite Hframe; auto.
Qed.

Lemma append_numbers_keeps_other eq_tuples : forall self self' k v,
  append_numbers self eq_tuples = Ok self' ->
  self !! k = Some v -> (forall l, v <> PyList l) ->
  self' !! k = Some v /\ k ∉ map fst eq_tuples.
Proof.
  induction eq_tuples as [| [name number] rest IH]; intros self self' k v.
  - intros [= <-] Hk _. split; [exact Hk | apply not_elem_of_nil].
  - cbn [append_numbers mbind result_bind].
    destruct (append_number self name number) as [self1 |] eqn:H1;
      [| discriminate].
    intros H Hk Hv.
    destruct (append_number_keeps_other _ _ _ _ _ _ H1 Hk Hv) as [Hk1 Hne].
    destruct (IH _ _ _ _ H Hk1 Hv) as [Hk' Hnin]. split; [exact Hk' |].
    cbn [map fst]. apply not_elem_of_cons. split; [congruence | exact Hnin].
Qed.

Lemma load_line_schema self content line self' content' :
  load_line (self, content) line = Ok (self', content') ->
  match self !! "vars"%string with
  | Some (PyTuple names) =>
      self' !! "vars"%string = Some (PyTuple names) /\
      "vars"%string ∉ fields_of line
  | Some _ => True
  | None =>
      match match_ line with
      | Ok (Some eq_tuples) =>
          self' !! "vars"%string = Some (PyTuple (map fst eq_tuples)) /\
          "vars"%string ∉ map fst eq_tuples
      | _ => self' = self
      end
  end.
Proof.
  unfold load_line, fields_of, hasattr.
  destruct (match_ line) as [[eq_tuples |] | e]; cbn [mbind result_bind];
    [| | discriminate].
  - destruct (append_numbers _ eq_tuples) as [self2 |] eqn:H2;
      cbn [mbind result_bind]; [| discriminate].
    intros [= <- _].
    destruct (self !! "vars"%string) as [[] |] eqn:Hv; try exact I.
    + now apply (append_numbers_keeps_other _ _ _ _ _ H2 Hv).
    + apply (append_numbers_keeps_other _ _ _ _ _ H2); [| discriminate].
      unfold setattr. apply lookup_insert_eq.
  - intros [= <- _]. destruct (self !! "vars"%string) as [[] |]; auto.
    split; [reflexivity | apply not_elem_of_nil].
Qed.

Lemma load_lines_schema_kept f : forall self content self' content' names,
  load_lines (self, content) f = Ok (self', content') ->
  self !! "vars"%string = Some (PyTuple names) ->
  self' !! "vars"%string = Some (PyTuple names) /\
  "vars"%string ∉ discovered f.
Proof.
  induction f as [| line f IH]; intros self content self' content' names.
  - intros [= <- _] Hv. split; [exact Hv | apply not_elem_of_nil].
  - cbn [load_lines mbind result_bind].
    destruct (load_line (self, content) line) as [[self1 content1] |] eqn:H1;
      [| discriminate].
    intros H Hv. apply load_line_schema in H1. rewrite Hv in H1.
    destruct H1 as [Hv1 Hn1]. destruct (IH _ _ _ _ _ H Hv1) as [Hv' Hn].
    split; [exact Hv' |]. unfold discovered. cbn [map concat].
    apply not_elem_of_app. now split.
Qed.

(** After the lines, [vars] is still unset and no line matched, or it is
    the names of the first matched line. *)
Lemma load_lines_schema f : forall self content self' content',
  self !! "vars"%string = None ->
  load_lines (self, content) f = Ok (self', content') ->
  (Forall unmatched f /\ self' !! "vars"%string = None) \/
  (exists pre line post eq_tuples,
     f = pre ++ line :: post /\ Forall unmatched pre /\
     match_ line = Ok (Some eq_tuples) /\
     self' !! "vars"%string = Some (PyTuple (map fst eq_tuples)) /\
     "vars"%string ∉ discovered f).
Proof.
  induction f as [| line f IH]; intros self content self' content' Hv.
  - intros [= <- _]. left. split; [constructor | exact Hv].
  - cbn [load_lines mbind result_bind].
    destruct (load_line (self, content) line) as [[self1 content1] |] eqn:H1;
      [| discriminate].
    intros H. pose proof (load_line_schema _ _ _ _ _ H1) as Hs.
    rewrite Hv in Hs.
    destruct (match_ line) as [[eq_tuples |] | e] eqn:Hm.
    + destruct Hs as [Hv1 Hn1]. right.
      destruct (load_lines_schema_kept _ _ _ _ _ _ H Hv1) as [Hv' Hn].
      exists [], line, f, eq_tuples. split; [reflexivity |].
      split; [constructor |]. split; [exact Hm |]. split; [exact Hv' |].
      unfold discovered. cbn [map concat]. apply not_elem_of_app.
      split; [| exact Hn]. unfold fields_of. now rewrite Hm.
    + subst self1.
      destruct (IH _ _ _ _ Hv H)
        as [[Hall Hv'] | (pre & l & post & t & -> & Hpre & Hl & Hv' & Hn)].
      * left. split; [now constructor | exact Hv'].
      * right. exists (line :: pre), l, post, t. split; [reflexivity |].
        split; [now constructor |]. split; [exact Hl |]. split; [exact Hv' |].
        unfold discovered. cbn [map concat]. apply not_elem_of_app.
        split; [| exact Hn]. unfold fields_of. rewrite Hm.
        apply not_elem_of_nil.
    + unfold load_line in H1. rewrite Hm in H1. discriminate.
Qed.

Lemma to_arrays_frame vars : forall self o k,
  to_arrays self vars = Ok o ->
  (forall var, EStr var ∈ vars -> str var <> k) ->
  o !! k = self !! k.
Proof.
  induction vars as [| [x | var] vars IH]; intros self o k;
    cbn [to_arrays mbind result_bind].
  - now intros [= <-].
  - discriminate.
  - unfold getattr. destruct (self !! str var) as [data |];
      cbn [mbind result_bind]; [| discriminate].
    intros Ho Hk. rewrite (IH _ _ k Ho).
    + unfold setattr. apply lookup_insert_ne, Hk, elem_of_cons. now left.
    + intros v Hv. apply Hk, elem_of_cons. now right.
Qed.

Lemma to_arrays_returns vars : forall self,
  (forall x, x ∈ vars -> exists var, x = EStr var /\ is_Some (self !! str var)) ->
  exists o, to_arrays self vars = Ok o.
Proof.
  induction vars as [| x vars IH]; intros self Hall; [now exists self |].
  destruct (Hall x) as (var & -> & [data Hd]); [apply elem_of_cons; now left |].
  cbn [to_arrays mbind result_bind]. unfold getattr. rewrite Hd.
  cbn [mbind result_bind]. apply IH. intros y Hy.
  destruct (Hall y) as (v & -> & Hv); [apply elem_of_cons; now right |].
  exists v. split; [reflexivity |]. unfold setattr.
  destruct (decide (str var = str v)) as [-> | Hne].
  - rewrite lookup_insert_eq. eauto.
  - now rewrite lookup_insert_ne.
Qed.

Lemma str_txt (name : string) : str (txt name) = name.
Proof. apply string_of_list_ascii_of_string. Qed.

Lemma fields_discovered pre line post name :
  name ∈ fields_of line -> name ∈ discovered (pre ++ line :: post).
Proof.
  intros H. unfold discovered. rewrite map_app, concat_app. cbn [map concat].
  apply elem_of_app. right. apply elem_of_app. now left.
Qed.

(** X5. The schema is the names of the first matched line, and it is
    never taken again: whatever the later lines carry, [vars] after [load]
    is the tuple of names of the first line [match] accepted. *)
Theorem load_schema_first_match (self0 : object) (pre : list text)
    (line : text) (post : list text) (eq_tuples : list (string * num))
    (o : object) :
  self0 !! "vars"%string = None ->
  Forall unmatched pre ->
  match_ line = Ok (Some eq_tuples) ->
  load self0 (pre ++ line :: post) = Ok o ->
  o !! "vars"%string = Some (PyTuple (map fst eq_tuples)).
Proof.
  intros Hv Hpre Hm. unfold load. rewrite (load_lines_skip pre _ _ Hpre).
  cbn [load_lines mbind result_bind].
  destruct (load_line (self0, []) line) as [[self1 content1] |] eqn:H1;
    cbn [mbind result_bind]; [| discriminate].
  apply load_line_schema in H1. rewrite Hv, Hm in H1. destruct H1 as [Hv1 Hn1].
  destruct (load_lines (self1, content1) post) as [[self2 content] |] eqn:H2;
    cbn [mbind result_bind]; [| discriminate].
  destruct (load_lines_schema_kept _ _ _ _ _ _ H2 Hv1) as [Hv2 _].
  unfold getattr, setattr. rewrite lookup_insert_ne by discriminate.
  rewrite Hv2. cbn [mbind result_bind iter_obj].
  intros Ht. rewrite (to_arrays_frame _ _ _ "vars"%string Ht).
  - now rewrite lookup_insert_ne by discriminate.
  - intros var Hin Heq.
    apply list_elem_of_fmap in Hin as (n & [= ->] & Hn).
    rewrite str_txt in Heq. subst n. contradiction.
Qed.

(** X9. [load] leaves alone what it has no reason to touch: an attribute
    that is neither [vars], nor [content], nor the name of a discovered
    field is after [load] what it was before. *)
Theorem load_preserves_attributes (self0 : object) (f : list text)
    (o : object) (k : string) :
  self0 !! "vars"%string = None ->
  load self0 f = Ok o ->
  k ∉ discovered f -> k <> "vars"%string -> k <> "content"%string ->
  o !! k = self0 !! k.
Proof.
  intros Hv. unfold load.
  destruct (load_lines (self0, []) f) as [[self1 content] |] eqn:Hl;
    cbn [mbind result_bind]; [| discriminate].
  pose proof (load_lines_schema _ _ _ _ _ Hv Hl) as Hs.
  apply load_lines_spec in Hl as (_ & _ & Hframe).
  unfold getattr, setattr. rewrite lookup_insert_ne by discriminate.
  destruct Hs as [[_ Hv1] | (pre & l & post & t & -> & _ & Hm & Hv1 & _)];
    rewrite Hv1; cbn [mbind result_bind iter_obj]; [discriminate |].
  intros Ht Hk Hkv Hkc. rewrite (to_arrays_frame _ _ _ k Ht).
  - rewrite lookup_insert_ne by congruence. now apply Hframe.
  - intros var Hin Heq.
    apply list_elem_of_fmap in Hin as (n & [= ->] & Hn).
    rewrite str_txt in Heq. subst n. apply Hk.
    apply fields_discovered. unfold fields_of. now rewrite Hm.
Qed.

Lemma append_number_raises self name number e :
  append_number self name number = Raise e -> e = AttributeError.
Proof.
  unfold append_number. destruct (self !! name) as [[] |]; congruence.
Qed.

Lemma append_numbers_raises eq_tuples : forall self e,
  append_numbers self eq_tuples = Raise e -> e = AttributeError.
Proof.
  induction eq_tuples as [| [name number] rest IH]; intros self e;
    [discriminate |].
  cbn [append_numbers mbind result_bind].
  destruct (append_number self name number) as [self1 |] eqn:H1.
  - apply IH.
  - intros [= <-]. now apply append_number_raises in H1.
Qed.

Lemma load_lines_raises f : forall st e,
  load_lines st f = Raise e -> e = AttributeError \/ e = ValueError.
Proof.
  induction f as [| line f IH]; intros [self content] e; [discriminate |].
  cbn [load_lines mbind result_bind].
  destruct (load_line (self, content) line) as [st1 |] eqn:H1; [apply IH |].
  intros [= <-]. unfold load_line in H1.
  destruct (match_ line) as [[eq_tuples |] | e1] eqn:Hm;
    cbn [mbind result_bind] in H1.
  - destruct (append_numbers _ eq_tuples) as [self2 |] eqn:H2;
      [discriminate |].
    injection H1 as <-. left. now apply append_numbers_raises in H2.
  - discriminate.
  - injection H1 as <-. right. now apply match_raises in Hm.
Qed.

(** Once the lines are read and one of them matched, the conversion to
    arrays goes through. *)
Lemma load_arrays_return self1 content f pre line post eq_tuples :
  (forall name, name ∈ discovered f -> holds_list self1 name) ->
  f = pre ++ line :: post -> match_ line = Ok (Some eq_tuples) ->
  exists o,
    to_arrays (setattr self1 "content" (PyStr content))
      (map (fun s => EStr (txt s)) (map fst eq_tuples)) = Ok o.
Proof.
  intros Hin -> Hm. apply to_arrays_returns. intros x Hx.
  apply list_elem_of_fmap in Hx as (n & -> & Hn). exists (txt n).
  split; [reflexivity |]. rewrite str_txt. unfold setattr.
  destruct (decide ("content"%string = n)) as [<- | Hne].
  - rewrite lookup_insert_eq. eauto.
  - rewrite lookup_insert_ne by exact Hne.
    destruct (Hin n) as [l Hl]; [| rewrite Hl; eauto].
    apply fields_discovered. unfold fields_of. now rewrite Hm.
Qed.

(** X7. On an instance without [vars], the exceptions of [load] are
    [AttributeError] and [ValueError], no other. *)
Theorem load_raises_two_errors (self0 : object) (f : list text) (e : exn) :
  self0 !! "vars"%string = None ->
  load self0 f = Raise e ->
  e = AttributeError \/ e = ValueError.
Proof.
  intros Hv. unfold load.
  destruct (load_lines (self0, []) f) as [[self1 content] | e1] eqn:Hl;
    cbn [mbind result_bind];
    [| intros [= <-]; now apply load_lines_raises in Hl].
  pose proof (load_lines_schema _ _ _ _ _ Hv Hl) as Hs.
  apply load_lines_spec in Hl as (Hin & _ & _).
  destruct Hs as [[_ Hv1] | (pre & l & post & t & Hf & _ & Hm & Hv1 & _)].
  - unfold getattr, setattr. rewrite lookup_insert_ne by discriminate.
    rewrite Hv1. cbn [mbind result_bind]. left. congruence.
  - destruct (load_arrays_return self1 content f pre l post t Hin Hf Hm)
      as [o Ho].
    unfold getattr. unfold setattr at 2.
    rewrite lookup_insert_ne by discriminate.
    rewrite Hv1. cbn [mbind result_bind iter_obj]. rewrite Ho. discriminate.
Qed.

Lemma append_number_returns self name number :
  appendable self name ->
  exists self', append_number self name number = Ok self' /\
    forall k, appendable self k -> appendable self' k.
Proof.
  intros Hn. unfold append_number.
  assert (Hkeep : forall l k, appendable self k ->
            appendable (setattr self name (PyList l)) k).
  { intros l k Hk. unfold appendable, holds_list, setattr.
    destruct (decide (name = k)) as [<- | Hne].
    - right. rewrite lookup_insert_eq. eauto.
    - now rewrite lookup_insert_ne. }
  destruct Hn as [-> | [l ->]]; eexists; split; try reflexivity; apply Hkeep.
Qed.

Lemma append_numbers_return eq_tuples : forall self,
  (forall name, name ∈ map fst eq_tuples -> appendable self name) ->
  exists self', append_numbers self eq_tuples = Ok self' /\
    forall k, appendable self k -> appendable self' k.
Proof.
  induction eq_tuples as [| [name number] rest IH]; intros self Hall.
  - exists self. now split.
  - cbn [append_numbers mbind result_bind].
    destruct (append_number_returns self name number) as (self1 & -> & Hk1).
    { apply Hall. cbn [map fst]. apply elem_of_cons. now left. }
    cbn [mbind result_bind]. destruct (IH self1) as (self' & -> & Hk).
    { intros n Hn. apply Hk1, Hall. cbn [map fst]. apply elem_of_cons.
      now right. }
    exists self'. split; [reflexivity |]. auto.
Qed.

Lemma load_lines_return f : forall self content,
  Forall (fun line => exists r, match_ line = Ok r) f ->
  (forall name, name ∈ discovered f ->
     name <> "vars"%string /\ appendable self name) ->
  exists self' content', load_lines (self, content) f = Ok (self', content').
Proof.
  induction f as [| line f IH]; intros self content Hok Hfresh.
  - now exists self, content.
  - inversion Hok as [| ? ? [r Hr] Hok']; subst.
    cbn [load_lines mbind result_bind]. unfold load_line at 1. rewrite Hr.
    cbn [mbind result_bind].
    assert (Hf : forall name, name ∈ discovered f ->
              name ∈ discovered (line :: f)).
    { intros n Hn. unfold discovered. cbn [map concat]. apply elem_of_app.
      now right. }
    destruct r as [eq_tuples |];
      [| cbn [mbind result_bind]; apply IH; auto].
    set (self1 := if hasattr self "vars" then self else _).
    assert (H1 : forall k, k <> "vars"%string -> appendable self k ->
              appendable self1 k).
    { intros k Hk Ha. unfold self1. destruct (hasattr self "vars"); [exact Ha |].
      unfold appendable, holds_list, setattr.
      now rewrite lookup_insert_ne by congruence. }
    destruct (append_numbers_return eq_tuples self1) as (self2 & -> & Hk2).
    { intros n Hn. destruct (Hfresh n) as [Hnv Ha]; [| now apply H1].
      unfold discovered. cbn [map concat]. apply elem_of_app. left.
      unfold fields_of. now rewrite Hr. }
    cbn [mbind result_bind]. apply IH; [exact Hok' |].
    intros n Hn. destruct (Hfresh n (Hf n Hn)) as [Hnv Ha].
    split; [exact Hnv |]. now apply Hk2, H1.
Qed.

(** X6. [load] returns whenever one line at least matches, [match] raises
    on no line, and no discovered field is called [vars] or meets an
    attribute that is not a list of numbers: lines that do not match are
    no obstacle. *)
Theorem load_returns (self0 : object) (f : list text) :
  self0 !! "vars"%string = None ->
  Forall (fun line => exists r, match_ line = Ok r) f ->
  Exists (fun line => matched line = true) f ->
  (forall name, name ∈ discovered f ->
     name <> "vars"%string /\ appendable self0 name) ->
  exists o, load self0 f = Ok o.
Proof.
  intros Hv Hok Hex Hfresh. unfold load.
  destruct (load_lines_return f self0 [] Hok Hfresh) as (self1 & content & Hl).
  rewrite Hl. cbn [mbind result_bind].
  pose proof (load_lines_schema _ _ _ _ _ Hv Hl) as Hs.
  apply load_lines_spec in Hl as (Hin & _ & _).
  unfold getattr. unfold setattr at 2.
  rewrite lookup_insert_ne by discriminate.
  destruct Hs as [[Hall _] | (pre & l & post & t & Hf & _ & Hm & Hv1 & _)].
  - exfalso. apply Exists_exists in Hex as (line & Hline & Hmatched).
    rewrite Forall_forall in Hall. specialize (Hall line Hline).
    unfold unmatched in Hall. unfold matched in Hmatched.
    now rewrite Hall in Hmatched.
  - rewrite Hv1. cbn [mbind result_bind iter_obj].
    exact (load_arrays_return self1 content f pre l post t Hin Hf Hm).
Qed.

Lemma column_length name f :
  (forall line, line ∈ f -> matched line = true -> carries_once name line) ->
  length (column name f) = length (filter (fun line => matched line = true) f).
Proof.
  unfold column. induction f as [| line f IH]; intros Hall; [reflexivity |].
  cbn [map concat]. rewrite length_app, filter_cons.
  rewrite IH by (intros l Hl; apply Hall, elem_of_cons; now right).
  destruct (decide (matched line = true)) as [Hm | Hm].
  - rewrite (Hall line) by (exact Hm || (apply elem_of_cons; now left)).
    reflexivity.
  - unfold matched, record_of_line in *.
    destruct (match_ line) as [[l |] | e]; [congruence | reflexivity ..].
Qed.

(** X8. The arrays of [load] are parallel: a field the instance did not
    have before, carried exactly once by every matched line, ends up with as
    many entries as lines matched. *)
Theorem load_parallel_arrays (self0 : object) (f : list text) (o : object)
    (name : string) :
  load self0 f = Ok o ->
  self0 !! name = None -> name <> "content"%string ->
  (forall line, line ∈ f -> matched line = true -> carries_once name line) ->
  length (numbers_of o name) =
  length (filter (fun line => matched line = true) f).
Proof.
  unfold load.
  destruct (load_lines (self0, []) f) as [[self1 content] |] eqn:Hl;
    cbn [mbind result_bind]; [| discriminate].
  apply (load_lines_numbers _ _ _ _ _ name) in Hl.
  destruct (getattr _ "vars"%string) as [vars |]; cbn [mbind result_bind];
    [| discriminate].
  destruct (iter_obj vars) as [names |]; cbn [mbind result_bind];
    [| discriminate].
  intros Ht H0 Hne Hall.
  destruct (to_arrays_floats _ _ _ name Ht) as [Hf _].
  apply (f_equal (@length Q)) in Hf. rewrite !length_map in Hf. rewrite Hf.
  unfold numbers_of at 1, setattr. rewrite lookup_insert_ne by congruence.
  fold (numbers_of self1 name). rewrite Hl. unfold numbers_of. rewrite H0.
  now apply column_length.
Qed.

End LoadStore.

(** ** [esort], for every [n] *)

Section EsortSlices.
Import OsziCar.
#[local] Existing Instance rec_le_total.
#[local] Existing Instance rec_le_trans.

(** X10. On a field of numbers beside 64-bit steps, [esort] returns for
    every integer [n]: the records are sorted by value, and by step among
    equal values; forward the result is the head of the sorted records,
    [min n p] of the [p] records for [0 <= n] and all but the last [-n] for
    [n < 0]; with [reverse=True] it is their tail, [min n p] records for
    [0 < n], and all but the first [-n] for [n <= 0], so that [n = 0] gives
    every record and not none. *)
Theorem esort_any_n (self : object) (var : string) (vals : list num)
    (zs : list Z) (n : Z) (reverse : bool) :
  self !! var = Some (NdArray vals) \/ self !! var = Some (PyList vals) ->
  self !! "step"%string = Some (NdArray (map NInt zs)) ->
  Forall in_int64 zs ->
  exists srted res other,
    srted ≡ₚ pairs vals zs /\ StronglySorted rec_le srted /\
    esort self var n reverse = Ok res /\
    srted = (if reverse then other ++ res else res ++ other) /\
    Z.of_nat (length res) =
      (let p := Z.of_nat (length srted) in
       if reverse then (if 0 <? n then Z.min n p else Z.max 0 (p + n))
       else (if n <? 0 then Z.max 0 (p + n) else Z.min n p)).
Proof.
  intros Hv Hs Hz.
  set (srted := merge_sort rec_le (pairs vals zs)).
  exists srted.
  exists (if reverse then slice_from (- n) srted else slice_to n srted).
  exists (if reverse then take (clamp srted (- n)) srted
          else drop (clamp srted n) srted).
  split; [apply merge_sort_Permutation |].
  split; [apply StronglySorted_merge_sort; apply _ |].
  split; [exact (esort_numbers self var vals zs n reverse Hv Hs Hz) |].
  unfold slice_from, slice_to, clamp.
  destruct reverse; (split; [now rewrite take_drop |]).
  - rewrite length_drop. cbv zeta.
    destruct (Z.ltb_spec (- n) 0), (Z.ltb_spec 0 n); lia.
  - rewrite length_take. cbv zeta.
    destruct (Z.ltb_spec n 0); lia.
Qed.

End EsortSlices.

(** ** More on the block generator *)

Section IterMore.
Variable tok : text -> result (list Q).
Import OutCar.

Lemma iter_from_blocks f bs : blocks_file tok f bs -> forall st,
  idle st ->
  iter_from tok st f = (number_from (ion_step st) bs, Exhausted).
Proof.
  induction 1 as [tail Ht | gap blk cs fs rest bs Hg Hw _ IH];
    intros st [Hb Hc].
  - rewrite <- (app_nil_r tail). now rewrite skip_filler.
  - rewrite skip_filler by assumption.
    destruct (read_block tok blk cs fs st rest Hw) as (st1 & Hi & Hk & ->);
      [now split |].
    rewrite (IH st1 Hi), Hk. reflexivity.
Qed.

Lemma number_from_steps bs : forall k,
  map step_of (number_from k bs) = steps_after k (length bs).
Proof.
  induction bs as [| [cs fs] bs IH]; intros k; [reflexivity |].
  cbn [number_from map length]. now rewrite steps_after_S, IH.
Qed.

Lemma number_from_data bs : forall k,
  map (fun b : block => (b.1.2, b.2)) (number_from k bs) = bs.
Proof.
  induction bs as [| [cs fs] bs IH]; intros k; [reflexivity |].
  cbn [number_from map fst snd]. now rewrite IH.
Qed.

(** X11. A file of [k] well-formed blocks, whatever lines that are no
    headers stand around them, yields the [k] blocks in file order, numbered
    1 to [k], and the traversal ends normally. *)
Theorem blocks_file_records (f : list text)
    (bs : list (list (list Q) * list (list Q))) :
  blocks_file tok f bs ->
  __iter__ tok f = (number_from 0 bs, Exhausted) /\
  map step_of (__iter__ tok f).1 = steps_after 0 (length bs) /\
  map (fun b : block => (b.1.2, b.2)) (__iter__ tok f).1 = bs.
Proof.
  intros Hf. unfold __iter__.
  rewrite (iter_from_blocks f bs Hf start) by (split; reflexivity).
  cbn [fst snd ion_step start]. split; [reflexivity |].
  split; [apply number_from_steps | apply number_from_data].
Qed.

Lemma unpack6_three values xyz f :
  unpack6 values = Ok (xyz, f) -> length xyz = 3%nat /\ length f = 3%nat.
Proof.
  destruct values as [| x [| y [| z [| fx [| fy [| fz [| w values]]]]]]];
    try discriminate. now intros [= <- <-].
Qed.

Lemma step_aligned st line st' y :
  step tok st line = Ok (st', y) -> collects_aligned st ->
  collects_aligned st' /\
  match y with Some b => aligned b.1.2 b.2 | None => True end.
Proof.
  unfold step, collects_aligned.
  destruct (collect_begin st) eqn:Hb; cbn [negb].
  - destruct (collecting st) eqn:Hc; cbn [negb].
    + destruct (is_separator line).
      * intros [= <- <-] Ha. cbn. split; [discriminate | now apply Ha].
      * destruct (tok line) as [values | e]; cbn [mbind result_bind];
          [| discriminate].
        destruct (unpack6 values) as [[xyz f] | e] eqn:Hu;
          cbn [mbind result_bind]; [| discriminate].
        intros [= <- <-] Ha. split; [| exact I]. cbn. intros _.
        destruct (Ha eq_refl) as (Hl & Hcs & Hfs).
        apply unpack6_three in Hu as [Hx Hf].
        split; [rewrite !length_app; cbn; lia |].
        split; apply Forall_app; split; auto.
    + destruct (is_separator line); intros [= <- <-] Ha; (split; [| exact I]).
      * cbn. intros _. now repeat split.
      * intros H. congruence.
  - destruct (is_header line); intros [= <- <-] Ha; (split; [| exact I]).
    + cbn. exact Ha.
    + exact Ha.
Qed.

Lemma iter_from_aligned f : forall st,
  collects_aligned st ->
  Forall (fun b : block => aligned b.1.2 b.2) (iter_from tok st f).1.
Proof.
  induction f as [| line f IH]; intros st Ha; cbn [iter_from];
    [constructor |].
  destruct (step tok st line) as [[st' y] | e] eqn:Hs; [| constructor].
  apply step_aligned in Hs as [Ha' Hy]; [| exact Ha].
  specialize (IH st' Ha'). destruct (iter_from tok st' f) as [ys e].
  destruct y as [b |]; cbn in *; [now constructor | exact IH].
Qed.

(** X12. In every record handed over, on any file and with any tokenizer,
    there are as many forces as coordinates, and every coordinate and every
    force has three components. *)
Theorem records_aligned (f : list text) :
  Forall (fun b : block => aligned b.1.2 b.2) (__iter__ tok f).1.
Proof.
  unfold __iter__. apply iter_from_aligned.
  unfold collects_aligned. cbn. discriminate.
Qed.

Lemma iter_from_prefix f1 f2 : forall st,
  exists more,
    (iter_from tok st (f1 ++ f2)).1 = (iter_from tok st f1).1 ++ more /\
    (forall e, (iter_from tok st f1).2 = Raised e ->
       more = [] /\ (iter_from tok st (f1 ++ f2)).2 = Raised e).
Proof.
  induction f1 as [| line f1 IH]; intros st.
  - exists (iter_from tok st f2).1. split; [reflexivity | discriminate].
  - cbn [app iter_from].
    destruct (step tok st line) as [[st' y] | e0]; [| now exists []].
    destruct (IH st') as (more & Hm & He). exists more.
    destruct (iter_from tok st' (f1 ++ f2)) as [ys2 e2].
    destruct (iter_from tok st' f1) as [ys1 e1]. cbn [fst snd] in *.
    split; [| exact He]. subst ys2. now destruct y.
Qed.

(** X13. The generator is lazy and never takes a record back: what a
    traversal of the first lines of a file hands over is what a traversal of
    the whole file hands over first; and where the first lines raise, the
    whole file hands over nothing more and raises the same exception. *)
Theorem records_of_prefix (f1 f2 : list text) :
  exists more,
    (__iter__ tok (f1 ++ f2)).1 = (__iter__ tok f1).1 ++ more /\
    (forall e, (__iter__ tok f1).2 = Raised e ->
       __iter__ tok (f1 ++ f2) = __iter__ tok f1).
Proof.
  unfold __iter__. destruct (iter_from_prefix f1 f2 start) as (more & Hm & He).
  exists more. split; [exact Hm |].
  intros e H1. destruct (He e H1) as [-> H2]. rewrite app_nil_r in Hm.
  destruct (iter_from tok start (f1 ++ f2)), (iter_from tok start f1).
  cbn [fst snd] in *. congruence.
Qed.

Lemma iter_from_raised f : forall st e,
  (iter_from tok st f).2 = Raised e ->
  exists before line after st',
    f = before ++ line :: after /\ run tok st before = Ok st' /\
    collect_begin st' = true /\ collecting st' = true /\
    is_separator line = false /\
    (tok line = Raise e \/
     exists values,
       tok line = Ok values /\ length values <> 6%nat /\ e = ValueError).
Proof.
  induction f as [| line f IH]; intros st e; cbn [iter_from];
    [discriminate |].
  destruct (step tok st line) as [[st1 y] | e0] eqn:Hs.
  - specialize (IH st1 e). destruct (iter_from tok st1 f) as [ys e1].
    cbn [snd] in *. intros He.
    destruct (IH He) as (before & l & after & st' & -> & Hr & H).
    exists (line :: before), l, after, st'. split; [reflexivity |].
    split; [| exact H]. cbn [run mbind result_bind]. rewrite Hs. exact Hr.
  - cbn [snd]. intros [= <-]. exists [], line, f, st.
    split; [reflexivity |]. split; [reflexivity |].
    unfold step in Hs.
    destruct (collect_begin st); cbn [negb] in Hs;
      [| destruct (is_header line); discriminate].
    destruct (collecting st); cbn [negb] in Hs;
      [| destruct (is_separator line); discriminate].
    destruct (is_separator line); [discriminate |].
    split; [reflexivity |]. split; [reflexivity |]. split; [reflexivity |].
    destruct (tok line) as [values | e1]; cbn [mbind result_bind] in Hs.
    + right. exists values. split; [reflexivity |].
      destruct values as [| x [| y [| z [| fx [| fy [| fz [| w values]]]]]]];
        cbn in Hs; try discriminate; injection Hs as <-; split;
        (discriminate || reflexivity).
    + left. congruence.
Qed.

(** X14. A traversal raises nowhere but on a data line: when an exception
    reaches the consumer, the file has a line, met while a block was being
    collected, that is no separator and that the tokenizer refused, passing
    on its own exception, or cut into a number of values other than six, a
    [ValueError]; the lines before it raised nothing. *)
Theorem raises_only_on_data_line (f : list text) (e : exn) :
  (__iter__ tok f).2 = Raised e ->
  exists before line after st,
    f = before ++ line :: after /\ run tok start before = Ok st /\
    collect_begin st = true /\ collecting st = true /\
    is_separator line = false /\
    (tok line = Raise e \/
     exists values,
       tok line = Ok values /\ length values <> 6%nat /\ e = ValueError).
Proof.
  unfold __iter__. intros He.
  destruct (iter_from_raised f start e He)
    as (before & line & after & st & Hf & Hr & Hb & Hc & Hs & Ht).
  exists before, line, after, st. auto 10.
Qed.

End IterMore.

(** ** [fmax], on every input *)

Section FmaxFacts.
Import OutCar.

Lemma key_empty (x : vector) : items x = [] -> key x = Ok (inject_Z 0).
Proof. unfold key. now intros ->. Qed.

Lemma max_from_raises l : forall best kbest,
  Exists (fun v => items v <> []) l ->
  max_from best kbest l = Raise TypeError.
Proof.
  induction l as [| x l IH]; intros best kbest Hex;
    [now apply Exists_nil in Hex |].
  cbn [max_from]. destruct (items x) as [| q qs] eqn:Hx.
  - rewrite (key_empty x Hx). cbn [mbind result_bind].
    apply Exists_cons in Hex as [H | H]; [congruence |].
    destruct (Qle_bool _ kbest); now apply IH.
  - now rewrite key_raises by congruence.
Qed.

Lemma max_from_empty l : forall best,
  Forall (fun v => items v = []) l ->
  max_from best (inject_Z 0) l = Ok best.
Proof.
  induction l as [| x l IH]; intros best Hall; [reflexivity |].
  inversion Hall as [| ? ? Hx Hl]; subst.
  cbn [max_from]. rewrite (key_empty x Hx). cbn [mbind result_bind].
  change (Qle_bool (inject_Z 0) (inject_Z 0)) with true. cbv iota.
  now apply IH.
Qed.

Lemma empty_or_component (l : list vector) :
  Forall (fun v => items v = []) l \/ Exists (fun v => items v <> []) l.
Proof.
  induction l as [| x l [IH | IH]].
  - left. constructor.
  - destruct (items x) as [| q qs] eqn:Hx.
    + left. now constructor.
    + right. apply Exists_cons_hd. congruence.
  - right. now apply Exists_cons_tl.
Qed.

(** X15. [fmax] on every input: it raises [ValueError] on the empty list
    and [TypeError] as soon as one vector has a component; it returns only
    on a list of vectors without components, and then index 0 with the
    first of them.  It never returns a force. *)
Theorem fmax_cases (atom_forces : list vector) :
  match atom_forces with
  | [] => fmax atom_forces = Raise ValueError
  | x :: _ =>
      (Exists (fun v => items v <> []) atom_forces ->
       fmax atom_forces = Raise TypeError) /\
      (Forall (fun v => items v = []) atom_forces ->
       fmax atom_forces = Ok (0, x))
  end /\
  (forall i v, fmax atom_forces = Ok (i, v) -> i = 0 /\ items v = []).
Proof.
  assert (Hcases : match atom_forces with
    | [] => fmax atom_forces = Raise ValueError
    | x :: _ =>
        (Exists (fun v => items v <> []) atom_forces ->
         fmax atom_forces = Raise TypeError) /\
        (Forall (fun v => items v = []) atom_forces ->
         fmax atom_forces = Ok (0, x))
    end).
  { destruct atom_forces as [| x l]; [reflexivity |]. split.
    - intros Hex. unfold fmax. cbn [max_by_key].
      destruct (items x) as [| q qs] eqn:Hx.
      + rewrite (key_empty x Hx). cbn [mbind result_bind].
        apply Exists_cons in Hex as [H | H]; [congruence |].
        now rewrite max_from_raises.
      + now rewrite key_raises by congruence.
    - intros Hall. inversion Hall as [| ? ? Hx Hl]; subst.
      unfold fmax. cbn [max_by_key]. rewrite (key_empty x Hx).
      cbn [mbind result_bind]. rewrite (max_from_empty l x Hl).
      cbn [mbind result_bind index].
      replace (vector_eqb x x) with true; [reflexivity |].
      destruct x as [l0 | l0]; cbn in Hx; now subst l0. }
  split; [exact Hcases |].
  intros i v Hr. destruct atom_forces as [| x l]; [discriminate |].
  destruct Hcases as [Hex Hall].
  destruct (empty_or_component (x :: l)) as [Ha | He].
  - rewrite (Hall Ha) in Hr. injection Hr as <- <-.
    split; [reflexivity |]. now inversion Ha.
  - rewrite (Hex He) in Hr. discriminate.
Qed.

End FmaxFacts.

(** ** The header pattern *)

Section HeaderFacts.
Import OutCar.

Lemma derives_lits s : forall w c c',
  derives (Lits s) w c c' -> w = s /\ c' = c.
Proof.
  induction s as [| a s IH]; intros w c c' Hd; cbn [Lits] in Hd.
  - inversion Hd; subst. now split.
  - inversion Hd as [| | ? ? w1 w2 ? c1 ? H1 H2 | | | | | | | |]; subst.
    inversion H1 as [| ? a' ? Ha | | | | | | | | |]; subst.
    apply Ascii.eqb_eq in Ha as <-. apply IH in H2 as [-> ->]. now split.
Qed.

Lemma exec_lits {A} s : forall b rest c (k : bool -> text -> caps -> option A) x,
  (forall b', k b' rest c = Some x) ->
  exec (Lits s) b (s ++ rest) c k = Some x.
Proof.
  induction s as [| a s IH]; intros b rest c k x Hk; [apply Hk |].
  cbn [Lits app]. rewrite exec_seq. apply exec_lit. intros b'. now apply IH.
Qed.

Lemma exec_bol {A} s c (k : bool -> text -> caps -> option A) :
  exec Bol true s c k = k true s c.
Proof. reflexivity. Qed.

Lemma exec_eol_inv {A} b s c (k : bool -> text -> caps -> option A) x :
  exec Eol b s c k = Some x -> s = [] \/ s = [newline].
Proof.
  destruct s as [| a [| a' s]]; cbn [exec]; try discriminate; [now left |].
  destruct (Ascii.eqb a newline) eqn:Ha; [| discriminate].
  apply Ascii.eqb_eq in Ha as ->. now right.
Qed.

Lemma force_regex_ascii : force_regex = force_regex_of is_space.
Proof. reflexivity. Qed.

Lemma is_header_ascii line : is_header line = header_of is_space line.
Proof. reflexivity. Qed.

(** X16. Whatever class of characters [\s] stands for, provided neither
    [T] nor the opening parenthesis is in it, the lines that
    [force_regex] accepts are exactly: [ POSITION], one character of the
    class or more, [TOTAL-FORCE], characters of the class or none,
    [(eV/Angst)], and then the end of the line, with or without its
    newline. *)
Theorem header_lines (space : ascii -> bool) (line : text) :
  space "T"%char = false -> space "("%char = false ->
  (header_of space line = true <-> header_text space line).
Proof.
  intros HT Hpar. unfold header_of. split.
  - destruct (re_match (force_regex_of space) line) as [m |] eqn:Hm;
      [| discriminate].
    intros _. unfold re_match, force_regex_of in Hm.
    rewrite exec_seq in Hm.
    apply exec_sound in Hm as (w0 & s0 & b0 & c0 & -> & H0 & Hm).
    inversion H0; subst; clear H0. rewrite exec_seq in Hm.
    apply exec_sound in Hm as (w1 & s1 & b1 & c1 & -> & H1 & Hm).
    apply derives_lits in H1 as [-> ->]. rewrite exec_seq in Hm.
    apply exec_sound in Hm as (ws1 & s2 & b2 & c2 & -> & H2 & Hm).
    apply derives_plus_class in H2 as (-> & Hws1 & Hne). rewrite exec_seq in Hm.
    apply exec_sound in Hm as (w3 & s3 & b3 & c3 & -> & H3 & Hm).
    apply derives_lits in H3 as [-> ->]. rewrite exec_seq in Hm.
    apply exec_sound in Hm as (ws2 & s4 & b4 & c4 & -> & H4 & Hm).
    apply derives_star_class in H4 as [-> Hws2]. rewrite exec_seq in Hm.
    apply exec_sound in Hm as (w5 & nl & b5 & c5 & -> & H5 & Hm).
    apply derives_lits in H5 as [-> ->].
    apply exec_eol_inv in Hm. rewrite app_nil_l.
    now constructor.
  - intros [ws1 ws2 nl Hne H1 H2 Hnl].
    assert (He : re_match (force_regex_of space)
                   (txt " POSITION" ++ ws1 ++ txt "TOTAL-FORCE" ++ ws2 ++
                    txt "(eV/Angst)" ++ nl) = Some []);
      [| now rewrite He].
    unfold re_match, force_regex_of. rewrite exec_seq, exec_bol.
    rewrite exec_seq. apply exec_lits. intros ?.
    rewrite exec_seq. apply exec_plus_run; [exact Hne | exact H1 | exact HT |].
    intros ?. rewrite exec_seq. apply exec_lits. intros ?.
    rewrite exec_seq. apply exec_star_run; [exact H2 | exact Hpar |].
    intros ?. rewrite exec_seq. apply exec_lits. intros ?.
    destruct Hnl as [-> | ->]; reflexivity.
Qed.

End HeaderFacts.

(** ** Values without a decimal point *)

Section PointFacts.
Import OsziCar.

Lemma space_plain c : is_space c = true -> is_plain c = true.
Proof. ascii_cases c. Qed.

Lemma digit_plain c : is_digit c = true -> is_plain c = true.
Proof. ascii_cases c. Qed.

Lemma name_plain c : is_name_char c = true -> is_plain c = true.
Proof. ascii_cases c. Qed.

Lemma sign_not_eq c : is_sign_char c = true -> negb (Ascii.eqb c "=") = true.
Proof. ascii_cases c. Qed.

Lemma exp_not_eq c : is_exp_char c = true -> negb (Ascii.eqb c "=") = true.
Proof. ascii_cases c. Qed.

Lemma plain_not_eq c : is_plain c = true -> negb (Ascii.eqb c "=") = true.
Proof. unfold is_plain. now intros [H _]%andb_prop. Qed.

Lemma pointed_plain w : forall need s,
  Forall (fun a => is_plain a = true) w ->
  pointed need (w ++ s) = pointed need s.
Proof.
  induction w as [| a w IH]; intros need s Hw; [reflexivity |].
  inversion Hw as [| ? ? Ha Hw']; subst. cbn [app pointed].
  unfold is_plain in Ha. apply andb_prop in Ha as [H1 H2].
  apply negb_true_iff in H1, H2. rewrite H1, H2. now apply IH.
Qed.

(** Nothing owed, nothing changes before the next [=]. *)
Lemma pointed_settled w : forall s,
  Forall (fun a => negb (Ascii.eqb a "=") = true) w ->
  pointed false (w ++ s) = pointed false s.
Proof.
  induction w as [| a w IH]; intros s Hw; [reflexivity |].
  inversion Hw as [| ? ? Ha Hw']; subst. cbn [app pointed].
  apply negb_true_iff in Ha. rewrite Ha.
  destruct (Ascii.eqb a "."); now apply IH.
Qed.

(** A text with a point and no [=] pays what is owed. *)
Lemma pointed_point w : forall need s,
  Forall (fun a => negb (Ascii.eqb a "=") = true) w -> "."%char ∈ w ->
  pointed need (w ++ s) = pointed false s.
Proof.
  induction w as [| a w IH]; intros need s Hw Hin;
    [now apply elem_of_nil in Hin |].
  inversion Hw as [| ? ? Ha Hw']; subst. cbn [app pointed].
  apply negb_true_iff in Ha. rewrite Ha.
  destruct (Ascii.eqb a ".") eqn:Hp; [now apply pointed_settled |].
  apply IH; [exact Hw' |].
  apply elem_of_cons in Hin as [Heq | Hin]; [| exact Hin].
  rewrite <- Heq, Ascii.eqb_refl in Hp. discriminate.
Qed.

Lemma derives_within q r w c c' :
  derives r w c c' -> within q r -> Forall (fun a => q a = true) w.
Proof.
  induction 1 as [| p a c Hp | ? ? ? ? ? ? ? _ IH1 _ IH2 | | ? ? ? ? _ IH
                  | | ? ? ? ? ? ? _ IH1 _ IH2 | ? ? ? ? ? ? _ IH1 _ IH2
                  | ? ? ? ? ? _ IH | |];
    cbn [within]; intros Hq; try constructor; auto.
  - destruct Hq. apply Forall_app. auto.
  - apply Forall_app. auto.
  - apply Forall_app. split; [auto |]. now apply IH2.
Qed.

(** What holds of every round holds of the repetition. *)
Lemma derives_star_all (P : text -> Prop) r w c c' :
  P [] -> (forall w1 w2, P w1 -> P w2 -> P (w1 ++ w2)) ->
  (forall w1 c1 c2, derives r w1 c1 c2 -> P w1) ->
  derives (Star r) w c c' -> P w.
Proof.
  intros Hnil Happ Hr. remember (Star r) as sr eqn:Hsr.
  induction 1; try discriminate; [exact Hnil |].
  injection Hsr as ->. apply Happ; [eapply Hr; eassumption | auto].
Qed.

Lemma float_within :
  within (fun a => negb (Ascii.eqb a "=")) float_regex.
Proof.
  unfold float_regex, Lit. cbn [within].
  repeat split; intros a Ha;
    try (now apply sign_not_eq); try (now apply exp_not_eq);
    try (now apply plain_not_eq, digit_plain).
  apply Ascii.eqb_eq in Ha as <-. reflexivity.
Qed.

Lemma float_must : must "." float_regex.
Proof.
  unfold float_regex, Lit. cbn [must]. right; right; left.
  intros a Ha. symmetry. now apply Ascii.eqb_eq.
Qed.

(** One assignment the pattern has matched leaves nothing owed. *)
Lemma derives_eq_pointed g w c c' :
  derives (eq_regex_at g) w c c' ->
  forall s, pointed false (w ++ s) = pointed false s.
Proof.
  intros Hd s. unfold eq_regex_at in Hd.
  inversion Hd as [| | ? ? sp1 w1 ? c1 ? H0 H1 | | | | | | | |]; subst; clear Hd.
  apply derives_star_class in H0 as [-> Hsp1].
  inversion H1 as [| | ? ? nm w2 ? c2 ? Hn H2 | | | | | | | |]; subst; clear H1.
  inversion Hn as [| | | | | | | | ? ? ? ? c2' Hn' | |]; subst; clear Hn.
  apply derives_plus_class in Hn' as (-> & Hname & _).
  inversion H2 as [| | ? ? eq w3 ? c3 ? He H3 | | | | | | | |]; subst; clear H2.
  inversion He as [| ? a ? Ha | | | | | | | | |]; subst; clear He.
  apply Ascii.eqb_eq in Ha as <-.
  inversion H3 as [| | ? ? sp2 w4 ? c4 ? Hs2 H4 | | | | | | | |]; subst; clear H3.
  apply derives_star_class in Hs2 as [-> Hsp2].
  inversion H4 as [| | ? ? fl sp3 ? c5 ? Hf Hs3 | | | | | | | |]; subst; clear H4.
  apply derives_star_class in Hs3 as [-> Hsp3].
  inversion Hf as [| | | | | | | | ? ? ? ? c6 Hf' | |]; subst; clear Hf.
  pose proof (derives_within _ _ _ _ _ Hf' float_within) as Hno.
  pose proof (derives_must _ _ _ _ _ Hf' float_must) as Hpt.
  rewrite <- !app_assoc.
  rewrite pointed_plain
    by (eapply Forall_impl; [exact Hsp1 | apply space_plain]).
  rewrite pointed_plain
    by (eapply Forall_impl; [exact Hname | apply name_plain]).
  cbn [app pointed negb andb]. 
  rewrite pointed_plain
    by (eapply Forall_impl; [exact Hsp2 | apply space_plain]).
  rewrite (pointed_point fl true _ Hno Hpt).
  apply pointed_plain. eapply Forall_impl; [exact Hsp3 | apply space_plain].
Qed.

(** On a line the pattern matches, every [=] has its point. *)
Lemma search_pointed line m :
  re_search split_regex line = Some m -> pointed false line = true.
Proof.
  intros H. apply search_anchored in H. unfold split_regex in H.
  rewrite exec_seq in H.
  apply exec_sound in H as (w0 & s0 & b0 & c0 & -> & H0 & H).
  inversion H0; subst; clear H0. rewrite exec_seq in H.
  apply exec_sound in H as (lead & s1 & b1 & c1 & -> & H1 & H).
  apply derives_star_class in H1 as [-> Hlead]. rewrite exec_seq in H.
  apply exec_sound in H as (ds & s2 & b2 & c2 & -> & H2 & H).
  inversion H2 as [| | | | | | | | ? ? ? ? c2' H2' | |]; subst; clear H2.
  apply derives_plus_class in H2' as (-> & Hds & _). rewrite exec_seq in H.
  apply exec_sound in H as (gap & s3 & b3 & c3 & -> & H3 & H).
  apply derives_star_class in H3 as [-> Hgap]. rewrite exec_seq in H.
  apply exec_sound in H as (resid & tail & b4 & c4 & -> & H4 & H).
  apply exec_eol_inv in H.
  inversion H4 as [| | | | | | | | ? ? ? ? c4' H4' | |]; subst; clear H4.
  rewrite app_nil_l.
  rewrite pointed_plain
    by (eapply Forall_impl; [exact Hlead | apply space_plain]).
  rewrite pointed_plain
    by (eapply Forall_impl; [exact Hds | apply digit_plain]).
  rewrite pointed_plain
    by (eapply Forall_impl; [exact Hgap | apply space_plain]).
  assert (Hround : forall w1 c1 c2,
            derives (Group 3 (eq_regex_at 4)) w1 c1 c2 ->
            forall s, pointed false (w1 ++ s) = pointed false s).
  { intros w1 c1 c2 Hg.
    inversion Hg as [| | | | | | | | ? ? ? ? c' Hg' | |]; subst.
    exact (derives_eq_pointed 4 w1 c1 c' Hg'). }
  assert (Hresid : forall s, pointed false (resid ++ s) = pointed false s).
  { inversion H4' as [| | | | | | | ? w1 w2 ? c5 ? Hr1 Hr2 | | |]; subst.
    assert (Hstar : forall s, pointed false (w2 ++ s) = pointed false s).
    { apply (derives_star_all
               (fun w => forall s, pointed false (w ++ s) = pointed false s)
               (Group 3 (eq_regex_at 4)) w2 c5 c4').
      - reflexivity.
      - intros v1 v2 Hv1 Hv2 s. now rewrite <- app_assoc, Hv1, Hv2.
      - exact Hround.
      - exact Hr2. }
    intros s. now rewrite <- app_assoc, (Hround _ _ _ Hr1), Hstar. }
  rewrite Hresid. destruct H as [-> | ->]; reflexivity.
Qed.

Lemma match_not_pointed line :
  pointed false line = false -> match_ line = Ok None.
Proof.
  intros Hp. unfold match_.
  destruct (re_search split_regex line) as [m |] eqn:Hm; [| reflexivity].
  apply search_pointed in Hm. congruence.
Qed.

Lemma sign_text_plain sg neg :
  sign_text sg neg -> Forall (fun a => is_plain a = true) sg.
Proof. intros []; repeat constructor. Qed.

Lemma digits_plain ds : digits ds -> Forall (fun a => is_plain a = true) ds.
Proof. intros H. eapply Forall_impl; [exact H | apply digit_plain]. Qed.

Lemma blanks_plain ws : blanks ws -> Forall (fun a => is_plain a = true) ws.
Proof. intros H. eapply Forall_impl; [exact H | apply space_plain]. Qed.

Lemma exponent_text_plain ex e :
  exponent_text ex e -> Forall (fun a => is_plain a = true) ex.
Proof.
  intros [| c sg neg ds Hc Hsg Hds _]; [constructor |].
  constructor; [destruct Hc as [-> | ->]; reflexivity |].
  apply Forall_app. split; [eapply sign_text_plain, Hsg | now apply digits_plain].
Qed.

(** A number with its point pays what is owed; an integer does not. *)
Lemma float_text_pointed v q need s :
  float_text v q -> pointed need (v ++ s) = pointed false s.
Proof.
  intros [sg neg ip fp ex e Hsg Hip Hfp _ Hex].
  rewrite <- !app_assoc, <- app_comm_cons, <- app_assoc.
  rewrite pointed_plain by (eapply sign_text_plain, Hsg).
  rewrite pointed_plain by (now apply digits_plain).
  cbn [pointed Ascii.eqb Bool.eqb andb].
  rewrite pointed_plain by (now apply digits_plain).
  apply pointed_plain. eapply exponent_text_plain, Hex.
Qed.

Lemma integer_text_pointed v need s :
  integer_text v -> pointed need (v ++ s) = pointed need s.
Proof.
  intros [sg neg ds Hsg Hds _]. apply pointed_plain, Forall_app.
  split; [eapply sign_text_plain, Hsg | now apply digits_plain].
Qed.

(** After an assignment: owed is a point exactly when the number was
    written without one. *)
Lemma assignment_pointed p need s :
  loose_assignment p ->
  pointed need (assignment_text p ++ s) =
  negb need && pointed true (a_value p ++ s).
Proof.
  intros (Hgap & _ & [Hname _] & Hsep & _). unfold assignment_text.
  rewrite <- !app_assoc, <- app_comm_cons, <- app_assoc.
  rewrite pointed_plain by (now apply blanks_plain).
  rewrite pointed_plain
    by (eapply Forall_impl; [exact Hname | apply name_plain]).
  cbn [pointed Ascii.eqb Bool.eqb andb]. f_equal.
  now rewrite pointed_plain by (now apply blanks_plain).
Qed.

Lemma assignments_owed ps tail :
  Forall loose_assignment ps -> blanks tail ->
  pointed true (concat (map assignment_text ps) ++ tail) = false.
Proof.
  intros Hps Htail. destruct Hps as [| p ps Hp _]; cbn [map concat app].
  - rewrite <- (app_nil_r tail).
    now rewrite pointed_plain by (now apply blanks_plain).
  - rewrite <- app_assoc. now rewrite assignment_pointed.
Qed.

Lemma assignments_not_pointed ps tail :
  Forall loose_assignment ps ->
  Exists (fun p => integer_text (a_value p)) ps -> blanks tail ->
  pointed false (concat (map assignment_text ps) ++ tail) = false.
Proof.
  intros Hps Hex Htail.
  induction Hex as [p ps Hint | p ps _ IH];
    inversion Hps as [| ? ? Hp Hps']; subst; cbn [map concat];
    rewrite <- app_assoc, assignment_pointed by exact Hp; cbn [negb andb].
  - rewrite integer_text_pointed by exact Hint.
    now apply assignments_owed.
  - destruct Hp as (_ & _ & _ & _ & [[q Hf] | Hint]).
    + rewrite (float_text_pointed _ q) by exact Hf. now apply IH.
    + rewrite integer_text_pointed by exact Hint. now apply assignments_owed.
Qed.

Lemma step_line_not_pointed lead step ps tail :
  blanks lead -> digits step -> Forall loose_assignment ps ->
  Exists (fun p => integer_text (a_value p)) ps -> blanks tail ->
  pointed false (step_line lead step ps tail) = false.
Proof.
  intros Hlead Hstep Hps Hex Htail. unfold step_line.
  rewrite pointed_plain by (now apply blanks_plain).
  rewrite pointed_plain by (now apply digits_plain).
  now apply assignments_not_pointed.
Qed.

End PointFacts.

(** C3 (amended). On a step line (blanks, the step, then assignments each
    made of blanks, a name, [=], optional blanks and a number), every
    number written as an optional sign, optional integer digits, a decimal
    point, optional fractional digits (one digit at least) and an optional
    [e]/[E] exponent with optional sign and digits is accepted by the
    matcher and converted: [match] returns the step and, in order, each
    name (its spaces removed) with the number its text denotes.  A number
    written as an integer, an optional sign and digits without a decimal
    point, is not accepted: as soon as one assignment of the line has such
    a number, whatever the others are, [match] returns no match for the
    line. *)
Theorem match_step_line (lead step : text) (ps : list assignment)
    (tail : text) :
  blanks lead -> digits step -> step <> [] -> ps <> [] -> blanks tail ->
  (forall numbers : list Q,
     Forall2 well_formed_assignment ps numbers ->
     OsziCar.match_ (step_line lead step ps tail) =
     Ok (Some (("step"%string, NInt (digits_val step)) ::
               zip (map (fun p => str (OsziCar.remove_spaces (a_name p))) ps)
                   (map NFloat numbers)))) /\
  (Forall loose_assignment ps ->
   Exists (fun p => integer_text (a_value p)) ps ->
   OsziCar.match_ (step_line lead step ps tail) = Ok None).
Proof.
  intros Hlead Hstep Hne Hps Htail. split.
  - intros numbers Hwf.
    destruct (search_step_line lead step ps numbers tail
                Hlead Hstep Hne Hps Hwf Htail) as (m & Hm & Hg1 & Hg2).
    unfold OsziCar.match_. rewrite Hm.
    pose proof (int_of_string_digits [] false step sign_none Hstep Hne) as Hint.
    change ([] ++ step) with step in Hint.
    unfold OsziCar.group_text. rewrite Hg1, Hg2. cbn [mbind result_bind].
    rewrite Hint. cbn [signed].
    unfold findall.
    rewrite (findall_assignments ps numbers tail Hwf Htail) by lia.
    rewrite (unzip2_map a_name a_value ps Hps). cbn [mbind result_bind].
    rewrite (floats_of_strings ps numbers Hwf). cbn [mbind result_bind].
    now rewrite map_map.
  - intros Hloose Hex. apply match_not_pointed.
    now apply step_line_not_pointed.
Qed.

(** ** The properties on the sample files *)

(** A line of the electronic loop: it has no [=]. *)
Lemma match_skips_without_point_witness :
  OsziCar.match_
    (ln "DAV:   1    -0.214638203131E+03   -0.21464E+03   -0.74046E+01") =
  Ok None.
Proof.
  apply match_skips_without_point. right.
  refine (bool_decide_unpack _ _). vm_compute. exact I.
Defined.

(** The second step line of the extract. *)
Lemma match_record_shape_witness :
  exists z fields,
    record_of_line
      (ln "   2 F= -.21468329E+03 E0= -.21467427E+03  d E =-.450881E-01") =
      ("step"%string, NInt z) :: fields /\ 0 <= z /\ fields <> [] /\
    Forall (fun f => (" "%char ∉ list_ascii_of_string (fst f)) /\
                     exists q, snd f = NFloat q) fields.
Proof.
  apply (match_record_shape
           (ln "   2 F= -.21468329E+03 E0= -.21467427E+03  d E =-.450881E-01")).
  vm_compute. reflexivity.
Defined.

(** A step line whose value is a lone point: the pattern lets it through,
    [float] does not. *)
Lemma match_raises_only_ValueError_witness :
  ValueError = ValueError /\
  exists m, re_search split_regex (txt "1 E0= .") = Some m.
Proof.
  apply (match_raises_only_ValueError (txt "1 E0= .")).
  vm_compute. reflexivity.
Defined.

(** The field [E0] of the extract. *)
Lemma load_field_column_witness :
  map to_float (numbers_of sample_parser "E0") =
    map to_float (column "E0" sample_oszicar) /\
  ("E0"%string <> "step"%string ->
   numbers_of sample_parser "E0" = column "E0" sample_oszicar).
Proof.
  apply (load_field_column OsziCar.new sample_oszicar sample_parser "E0").
  - reflexivity.
  - vm_compute. reflexivity.
  - discriminate.
Defined.

(** The schema of the extract is that of its first step line, which is its
    third line. *)
Lemma load_schema_first_match_witness :
  sample_parser !! "vars"%string =
  Some (PyTuple (map fst (record_of_line
    (ln "   1 F= -.21463821E+03 E0= -.21462279E+03  d E =-.214637E+03")))).
Proof.
  apply (load_schema_first_match OsziCar.new
    [ln "       N       E                     dE             d eps       ncg     rms";
     ln "DAV:   1    -0.214638203131E+03   -0.21464E+03   -0.74046E+01   880   0.126E+01"]
    (ln "   1 F= -.21463821E+03 E0= -.21462279E+03  d E =-.214637E+03")
    [ln "DAV:   1    -0.214683291E+03   -0.45088E-01   -0.12477E+00   928   0.165E+00";
     ln "   2 F= -.21468329E+03 E0= -.21467427E+03  d E =-.450881E-01";
     ln "   3 F= -.21465937E+03 E0= -.21465031E+03  d E =0.239300E-01"]).
  - vm_compute. reflexivity.
  - repeat (apply List.Forall_cons; [vm_compute; reflexivity |]). apply List.Forall_nil.
  - vm_compute. reflexivity.
  - reflexivity.
Defined.

(** The extract loads. *)
Lemma load_returns_witness :
  exists o, OsziCar.load OsziCar.new sample_oszicar = Ok o.
Proof.
  apply load_returns.
  - vm_compute. reflexivity.
  - repeat (apply List.Forall_cons; [eexists; vm_compute; reflexivity |]).
    apply List.Forall_nil.
  - apply Exists_cons_tl, Exists_cons_tl, Exists_cons_hd.
    vm_compute. reflexivity.
  - apply (proj1 (Forall_forall
      (fun name => name <> "vars"%string /\ appendable OsziCar.new name)
      (OsziCar.discovered sample_oszicar))).
    replace (OsziCar.discovered sample_oszicar)
      with ["step"; "F"; "E0"; "dE"; "step"; "F"; "E0"; "dE";
            "step"; "F"; "E0"; "dE"]%string
      by (vm_compute; reflexivity).
    repeat (apply List.Forall_cons;
            [split; [discriminate | left; vm_compute; reflexivity] |]).
    apply List.Forall_nil.
Defined.

(** A file of headings: [load] raises the first of the two. *)
Lemma load_raises_two_errors_witness :
  AttributeError = AttributeError \/ AttributeError = ValueError.
Proof.
  apply (load_raises_two_errors OsziCar.new
    [ln "       N       E                     dE             d eps";
     ln "DAV:   1    -0.214638203131E+03   -0.21464E+03   -0.74046E+01"]);
    vm_compute; reflexivity.
Defined.

(** The three step lines of the extract carry [E0] once each. *)
Lemma load_parallel_arrays_witness :
  length (numbers_of sample_parser "E0") =
  length (filter (fun line => OsziCar.matched line = true) sample_oszicar).
Proof.
  apply (load_parallel_arrays OsziCar.new sample_oszicar sample_parser "E0").
  - reflexivity.
  - vm_compute. reflexivity.
  - discriminate.
  - apply (proj1 (Forall_forall
      (fun line => OsziCar.matched line = true -> carries_once "E0" line)
      sample_oszicar)).
    repeat (apply List.Forall_cons;
            [vm_compute; intros H; (discriminate H || reflexivity) |]).
    apply List.Forall_nil.
Defined.

(** The method [esort] is still there after the extract is loaded. *)
Lemma load_preserves_attributes_witness :
  sample_parser !! "esort"%string = OsziCar.new !! "esort"%string.
Proof.
  apply (load_preserves_attributes OsziCar.new sample_oszicar).
  - vm_compute. reflexivity.
  - reflexivity.
  - refine (bool_decide_unpack _ _). vm_compute. exact I.
  - discriminate.
  - discriminate.
Defined.

(** [esort('E0', 0, reverse=True)] on the extract. *)
Lemma esort_any_n_witness :
  exists srted res other,
    srted ≡ₚ OsziCar.pairs
      [NFloat (-214.62279); NFloat (-214.67427); NFloat (-214.65031)]%Q
      [1; 2; 3] /\
    StronglySorted OsziCar.rec_le srted /\
    OsziCar.esort sample_parser "E0" 0 true = Ok res /\
    srted = other ++ res /\
    Z.of_nat (length res) = Z.max 0 (Z.of_nat (length srted) + 0).
Proof.
  apply (esort_any_n sample_parser "E0"
           [NFloat (-214.62279); NFloat (-214.67427); NFloat (-214.65031)]%Q
           [1; 2; 3] 0 true).
  - left. vm_compute. reflexivity.
  - vm_compute. reflexivity.
  - repeat constructor; vm_compute; intros H; discriminate H.
Defined.

(** The two-step extract is a file of two blocks. *)
Lemma blocks_file_records_witness :
  OutCar.__iter__ line2list sample_outcar =
    (number_from 0
       [([[0; 0; 0]; [1.27; 1.27; 1.27]]%Q,
         [[0; 0; 0.012347]; [-0.1; 0.3; -0.012347]]%Q);
        ([[0; 0; 0.001]; [1.27; 1.27; 1.269]]%Q,
         [[0; 0; 0.003]; [-0.01; 0.03; -0.003]]%Q)],
     OutCar.Exhausted) /\
  map OutCar.step_of (OutCar.__iter__ line2list sample_outcar).1 =
    OutCar.steps_after 0 2 /\
  map (fun b : OutCar.block => (b.1.2, b.2))
      (OutCar.__iter__ line2list sample_outcar).1 =
    [([[0; 0; 0]; [1.27; 1.27; 1.27]]%Q,
      [[0; 0; 0.012347]; [-0.1; 0.3; -0.012347]]%Q);
     ([[0; 0; 0.001]; [1.27; 1.27; 1.269]]%Q,
      [[0; 0; 0.003]; [-0.01; 0.03; -0.003]]%Q)].
Proof.
  apply (blocks_file_records line2list sample_outcar).
  apply (blocks_next line2list
           [ln " FREE ENERGIE OF THE ION-ELECTRON SYSTEM (eV)"] sample_block1).
  - repeat constructor.
  - apply OutCar.wf_block;
      [vm_compute; reflexivity | vm_compute; reflexivity |
      | vm_compute; reflexivity].
    repeat constructor; vm_compute; repeat eexists.
  - apply (blocks_next line2list [drift_line] sample_block2 _ _ [drift_line] []).
    + repeat constructor.
    + apply OutCar.wf_block;
        [vm_compute; reflexivity | vm_compute; reflexivity |
        | vm_compute; reflexivity].
      repeat constructor; vm_compute; repeat eexists.
    + apply blocks_end. repeat constructor.
Defined.

(** The cut extract followed by a five-column line. *)
Lemma raises_only_on_data_line_witness :
  exists before line after st,
    cut_outcar ++ short_line :: [dash_line; drift_line] =
      before ++ line :: after /\
    OutCar.run line2list OutCar.start before = Ok st /\
    OutCar.collect_begin st = true /\ OutCar.collecting st = true /\
    OutCar.is_separator line = false /\
    (line2list line = Raise ValueError \/
     exists values,
       line2list line = Ok values /\ length values <> 6%nat /\
       ValueError = ValueError).
Proof.
  apply (raises_only_on_data_line line2list
           (cut_outcar ++ short_line :: [dash_line; drift_line]) ValueError).
  vm_compute. reflexivity.
Defined.

(** The lines [3 E0= -1.23 E1=4.0e-02] and [1 E0= 1.5 E1=4]. *)
Lemma match_step_line_witness :
  (step_line [] (txt "3") sample_assignments [] = txt "3 E0= -1.23 E1=4.0e-02" /\
   OsziCar.match_ (step_line [] (txt "3") sample_assignments []) =
   Ok (Some (("step"%string, NInt (digits_val (txt "3"))) ::
             zip (map (fun p => str (OsziCar.remove_spaces (a_name p)))
                      sample_assignments)
                 (map NFloat [-1.23; 1 # 25]%Q)))) /\
  (step_line [] (txt "1") integer_assignments [] = txt "1 E0= 1.5 E1=4" /\
   OsziCar.match_ (step_line [] (txt "1") integer_assignments []) = Ok None).
Proof.
  split; (split; [reflexivity |]).
  - apply (match_step_line [] (txt "3") sample_assignments []).
    + constructor.
    + repeat constructor.
    + discriminate.
    + discriminate.
    + constructor.
    + repeat constructor; try discriminate.
      * exact (float_text_intro (txt "-") true (txt "1") (txt "23") [] 0
                 sign_minus
                 ltac:(repeat constructor) ltac:(repeat constructor)
                 ltac:(left; discriminate) exponent_none).
      * exact (float_text_intro [] false (txt "4") (txt "0") (txt "e-02") (-2)
                 sign_none
                 ltac:(repeat constructor) ltac:(repeat constructor)
                 ltac:(left; discriminate)
                 (exponent_some "e" (txt "-") true (txt "02")
                    ltac:(left; reflexivity) sign_minus
                    ltac:(repeat constructor) ltac:(discriminate))).
  - apply (match_step_line [] (txt "1") integer_assignments []).
    + constructor.
    + repeat constructor.
    + discriminate.
    + discriminate.
    + constructor.
    + apply List.Forall_cons; [| apply List.Forall_cons; [| constructor]].
      * split; [repeat constructor |]. split; [discriminate |].
        split; [split; [repeat constructor | reflexivity] |].
        split; [repeat constructor |].
        left. eexists.
        exact (float_text_intro [] false (txt "1") (txt "5") [] 0
                 sign_none
                 ltac:(repeat constructor) ltac:(repeat constructor)
                 ltac:(left; discriminate) exponent_none).
      * split; [repeat constructor |]. split; [discriminate |].
        split; [split; [repeat constructor | reflexivity] |].
        split; [constructor |].
        right.
        exact (integer_text_intro [] false (txt "4") sign_none
                 ltac:(repeat constructor) ltac:(discriminate)).
    + apply Exists_cons_tl, Exists_cons_hd.
      exact (integer_text_intro [] false (txt "4") sign_none
               ltac:(repeat constructor) ltac:(discriminate)).
Defined.

(** The header of the extract, for the whitespace of byte patterns; and a
    header whose columns the unit separator parts, for the whitespace of
    patterns over text. *)
Lemma header_lines_witness :
  (OutCar.is_header header_line = true <->
   header_text is_space header_line) /\
  header_of is_space header_line = true /\
  (header_of is_space_str separator_header = true <->
   header_text is_space_str separator_header) /\
  header_of is_space_str separator_header = true.
Proof.
  split; [apply (header_lines is_space header_line); reflexivity |].
  split; [reflexivity |].
  split; [apply (header_lines is_space_str separator_header); reflexivity |].
  reflexivity.
Defined.

(** C5 (as stated) fails: the specification admits as header of a block a
    line without the blank before [POSITION], or with blanks after the
    closing parenthesis; the pattern of the code wants one space before
    and nothing after.  A file of two such blocks of two entities each
    yields no record at all. *)
Lemma spec_headers_not_recognised :
  spec_well_formed_block line2list spec_block1
    [[0; 0; 0]; [1.27; 1.27; 1.27]]%Q
    [[0; 0; 0.012347]; [-0.1; 0.3; -0.012347]]%Q /\
  spec_well_formed_block line2list spec_block2
    [[0; 0; 0.001]; [1.27; 1.27; 1.269]]%Q
    [[0; 0; 0.003]; [-0.01; 0.03; -0.003]]%Q /\
  OutCar.is_header flush_header = false /\
  OutCar.is_header trailing_header = false /\
  OutCar.__iter__ line2list (spec_block1 ++ spec_block2) =
    ([], OutCar.Exhausted).
Proof.
  split; [| split].
  - apply spec_wf_block;
      [vm_compute; reflexivity | vm_compute; reflexivity |
      | vm_compute; reflexivity].
    repeat constructor; vm_compute; repeat eexists.
  - apply spec_wf_block;
      [vm_compute; reflexivity | vm_compute; reflexivity |
      | vm_compute; reflexivity].
    repeat constructor; vm_compute; repeat eexists.
  - repeat split; vm_compute; reflexivity.
Qed.
